(** * Libra oracle: constant serialization and function serialization context

    A shallow embedding of [oracle/Libra/SerializeConstant.cpp] and of the
    companion source that owns the synthetic scope
    ([prepare_for_serialization]) and the label maps of
    [FunctionSerializationContext], together with the properties of the
    serializer that are stated about them.

    Conventions of the embedding:
    - object identity (a C++ pointer) is an address, a number in [N];
    - unsigned machine integers ([uint64_t], [size_t], [unsigned]) are
      numbers in [N]; the only place where the code clamps a value is
      [APInt::getLimitedValue], written out in [getLimitedValue];
    - a function that logs, aborts or mutates the IR is a computation in
      the state-and-failure monad [M]; the state of a method is its
      object, passed explicitly;
    - [assert] is the assertion of a build without [NDEBUG]: a call that
      violates it does not return. *)

From Stdlib Require Import String List NArith Lia Bool.
From stdpp Require Import gmap list.

Set Warnings "-register-all".

Open Scope string_scope.
Open Scope list_scope.
Open Scope N_scope.

(** ** JSON values ([llvm::json::Value]) *)

Inductive Json : Type :=
| JNull
| JUInt (n : N)
| JString (s : string)
| JArray (l : list Json)
| JObject (fields : list (string * Json)).

(** [json::Object result;] *)
Definition obj_empty : list (string * Json) := [].

(** [result[key] = v;] assigns the member, replacing an earlier one. *)
Fixpoint obj_set (key : string) (v : Json) (o : list (string * Json))
  : list (string * Json) :=
  match o with
  | [] => [(key, v)]
  | (k, w) :: o' =>
      if String.eqb k key then (k, v) :: o' else (k, w) :: obj_set key v o'
  end.

(** *** Strings in JSON values must be UTF-8

    [llvm::json::isUTF8]: the bytes of the string are a sequence of
    well-formed UTF-8 byte sequences, one to four bytes long (no overlong
    form, no surrogate, nothing above U+10FFFF), which is what
    [isLegalUTF8String] checks, byte sequence by byte sequence. *)

(** The bytes of a string. *)
Fixpoint bytes (s : string) : list N :=
  match s with
  | EmptyString => []
  | String c s' => Ascii.N_of_ascii c :: bytes s'
  end.

(** A trailing byte, [0x80] to [0xBF]. *)
Definition trailing (b : N) : bool := (128 <=? b) && (b <=? 191).

(** The byte that follows the leading byte [b0] of a sequence of three or
    four bytes: its range is narrower after [0xE0], [0xED], [0xF0] and
    [0xF4]. *)
Definition second_byte (b0 b1 : N) : bool :=
  if b0 =? 224 then (160 <=? b1) && (b1 <=? 191)
  else if b0 =? 237 then (128 <=? b1) && (b1 <=? 159)
  else if b0 =? 240 then (144 <=? b1) && (b1 <=? 191)
  else if b0 =? 244 then (128 <=? b1) && (b1 <=? 143)
  else trailing b1.

Fixpoint isLegalUTF8String (l : list N) : bool :=
  match l with
  | [] => true
  | b0 :: r0 =>
      if b0 <? 128 then isLegalUTF8String r0
      else if b0 <? 194 then false
      else if b0 <? 224 then
        match r0 with
        | b1 :: r1 => trailing b1 && isLegalUTF8String r1
        | _ => false
        end
      else if b0 <? 240 then
        match r0 with
        | b1 :: b2 :: r2 =>
            second_byte b0 b1 && trailing b2 && isLegalUTF8String r2
        | _ => false
        end
      else if b0 <? 245 then
        match r0 with
        | b1 :: b2 :: b3 :: r3 =>
            second_byte b0 b1 && trailing b2 && trailing b3
            && isLegalUTF8String r3
        | _ => false
        end
      else false
  end.

Definition isUTF8 (S : string) : bool := isLegalUTF8String (bytes S).

(** ** The IR object model the serializer reads *)

Definition addr := N.

Inductive LType : Type :=
| VoidTy
| IntegerTy (bits : N)
| FunctionTy (ret : LType) (params : list LType) (isVarArg : bool)
| OpaqueTy (id : N).

(** [llvm::APFloat]: the serializer only ever prints it. *)
Record APFloat : Type := { fp_semantics : N; fp_bits : N }.

(** [llvm::APInt]: a bit width and the unsigned value of the bits. *)
Record APInt : Type := { BitWidth : N; zext : N }.

Definition UINT64_MAX : N := 18446744073709551615.

(** [APInt::ugt(uint64_t RHS)]: unsigned comparison against a 64-bit value. *)
Definition ugt (a : APInt) (RHS : N) : bool := RHS <? zext a.

(** [APInt::getLimitedValue(Limit)]:
    [ugt(Limit) ? Limit : getZExtValue()]. *)
Definition getLimitedValue (a : APInt) (Limit : N) : N :=
  if ugt a Limit then Limit else zext a.

(** [GlobalValue::LinkageTypes] *)
Inductive LinkageTypes := ExternalLinkage | InternalLinkage | OtherLinkage (n : N).

(** The [llvm::Constant] class hierarchy, one constructor per concrete class
    the dispatcher tells apart, in the order of the dispatch; the [*Other]
    constructors stand for a subclass the dispatcher does not know.  A
    global value carries its name (empty when it has none) and what it is
    defined by (initializer, body, aliasee or resolver), when it has a
    definition.  A dense data sequence carries the constants that
    [getElementAsConstant(i)] returns, for [i] below [getNumElements()]. *)
Inductive Constant : Type :=
| CDSOLocalEquivalent (ty : LType)
| CNoCFIValue (ty : LType)
  (* ConstantData *)
| CInt (ty : LType) (v : APInt)
| CFP (ty : LType) (v : APFloat)
| CPointerNull (ty : LType)
| CTokenNone (ty : LType)
| CTargetNone (ty : LType)
| CUndef (ty : LType)
| CAggregateZero (ty : LType)
| CDataArray (ty : LType) (elements : list Constant)
| CDataVector (ty : LType) (elements : list Constant)
| CDataOther (ty : LType)
  (* BlockAddress *)
| CBlockAddress (ty : LType)
  (* ConstantAggregate *)
| CArray (ty : LType) (operands : list Constant)
| CStruct (ty : LType) (operands : list Constant)
| CVector (ty : LType) (operands : list Constant)
| CAggregateOther (ty : LType) (operands : list Constant)
  (* GlobalValue *)
| CGlobalVariable (ty : LType) (name : string) (definition : option Constant)
| CFunction (ty : LType) (name : string) (definition : option Constant)
| CGlobalAlias (ty : LType) (name : string) (definition : option Constant)
| CGlobalIFunc (ty : LType) (name : string) (definition : option Constant)
| CGlobalOther (ty : LType) (name : string) (definition : option Constant)
  (* ConstantExpr *)
| CExpr (ty : LType) (opcode : N) (operands : list Constant)
  (* anything else *)
| COther (ty : LType).

(** [Value::getType()] *)
Definition getType (val : Constant) : LType :=
  match val with
  | CDSOLocalEquivalent ty | CNoCFIValue ty | CInt ty _ | CFP ty _
  | CPointerNull ty | CTokenNone ty | CTargetNone ty | CUndef ty
  | CAggregateZero ty | CDataArray ty _ | CDataVector ty _ | CDataOther ty
  | CBlockAddress ty | CArray ty _ | CStruct ty _ | CVector ty _
  | CAggregateOther ty _ | CGlobalVariable ty _ _ | CFunction ty _ _
  | CGlobalAlias ty _ _ | CGlobalIFunc ty _ _ | CGlobalOther ty _ _
  | CExpr ty _ _ | COther ty => ty
  end.

(** [Value::hasName()]: a value has a name exactly when the name is not
    empty. *)
Definition hasName (name : string) : bool := negb (String.eqb name "").

(** The structural induction principle of [Constant], through the element
    and operand lists. *)
Section ConstantInduction.
Variable P : Constant -> Prop.
Hypothesis H_leaf : forall c,
  match c with
  | CDataArray _ _ | CDataVector _ _ | CArray _ _ | CStruct _ _
  | CVector _ _ | CAggregateOther _ _ | CExpr _ _ _ => True
  | _ => P c
  end.
Hypothesis H_data_array : forall ty l, Forall P l -> P (CDataArray ty l).
Hypothesis H_data_vector : forall ty l, Forall P l -> P (CDataVector ty l).
Hypothesis H_array : forall ty l, Forall P l -> P (CArray ty l).
Hypothesis H_struct : forall ty l, Forall P l -> P (CStruct ty l).
Hypothesis H_vector : forall ty l, Forall P l -> P (CVector ty l).
Hypothesis H_agg_other : forall ty l, Forall P l -> P (CAggregateOther ty l).
Hypothesis H_expr : forall ty op l, Forall P l -> P (CExpr ty op l).

Fixpoint Constant_nested_ind (c : Constant) : P c :=
  let all := fix all (l : list Constant) : Forall P l :=
    match l with
    | [] => @List.Forall_nil Constant P
    | x :: l' => @List.Forall_cons Constant P x l' (Constant_nested_ind x) (all l')
    end in
  match c return P c with
  | CDataArray ty l => H_data_array ty l (all l)
  | CDataVector ty l => H_data_vector ty l (all l)
  | CArray ty l => H_array ty l (all l)
  | CStruct ty l => H_struct ty l (all l)
  | CVector ty l => H_vector ty l (all l)
  | CAggregateOther ty l => H_agg_other ty l (all l)
  | CExpr ty op l => H_expr ty op l (all l)
  | CDSOLocalEquivalent ty => H_leaf (CDSOLocalEquivalent ty)
  | CNoCFIValue ty => H_leaf (CNoCFIValue ty)
  | CInt ty v => H_leaf (CInt ty v)
  | CFP ty v => H_leaf (CFP ty v)
  | CPointerNull ty => H_leaf (CPointerNull ty)
  | CTokenNone ty => H_leaf (CTokenNone ty)
  | CTargetNone ty => H_leaf (CTargetNone ty)
  | CUndef ty => H_leaf (CUndef ty)
  | CAggregateZero ty => H_leaf (CAggregateZero ty)
  | CDataOther ty => H_leaf (CDataOther ty)
  | CBlockAddress ty => H_leaf (CBlockAddress ty)
  | CGlobalVariable ty n d => H_leaf (CGlobalVariable ty n d)
  | CFunction ty n d => H_leaf (CFunction ty n d)
  | CGlobalAlias ty n d => H_leaf (CGlobalAlias ty n d)
  | CGlobalIFunc ty n d => H_leaf (CGlobalIFunc ty n d)
  | CGlobalOther ty n d => H_leaf (CGlobalOther ty n d)
  | COther ty => H_leaf (COther ty)
  end.
End ConstantInduction.

(** ** Instructions, blocks, functions and the module *)

(** An instruction whose operands are constants: the instructions the
    serializer creates itself are of this kind (the unreachable terminator
    of the synthetic block and every materialized constant expression). *)
Record Instruction : Type := {
  inst_addr : addr;
  inst_opcode : N;
  inst_type : LType;
  inst_operands : list Constant }.

(** [Instruction::Unreachable] *)
Definition Unreachable : N := 7.

Record BasicBlock : Type := {
  bb_addr : addr;
  bb_name : string;
  bb_insts : list Instruction }.

Record LFunction : Type := {
  fn_addr : addr;
  fn_name : string;
  fn_linkage : LinkageTypes;
  fn_type : LType;
  fn_blocks : list BasicBlock }.

(** ** The logger ([Shared/Logger.h]) *)

Module Logger.
(** The significance or severity of a message. *)
Inductive Level : Type := Debug | Info | Warning | Error | None.
End Logger.

Inductive LogArg : Type :=
| ArgUnsigned (n : N)
| ArgConstant (c : Constant).

Record LogRecord : Type := {
  rec_level : Logger.Level;
  rec_format : string;
  rec_args : list LogArg }.

(** ** Computations: state and failure *)

(** The three ways a call does not return: [LOG->fatal], a failed [assert],
    and the [std::out_of_range] that the [at] of a map throws. *)
Inductive Failure : Type :=
| Fatal (format : string) (args : list LogArg)
| AssertionFailed
| OutOfRange.

Inductive Outcome (A : Type) : Type :=
| Done (a : A)
| Abort (f : Failure).
Arguments Done {A} a.
Arguments Abort {A} f.

Definition M (S A : Type) : Type := S -> Outcome A * S.

Definition ret {S A : Type} (a : A) : M S A := fun s => (Done a, s).

Definition bind {S A B : Type} (m : M S A) (k : A -> M S B) : M S B :=
  fun s =>
    match m s with
    | (Done a, s') => k a s'
    | (Abort f, s') => (Abort f, s')
    end.

Definition fail {S A : Type} (f : Failure) : M S A := fun s => (Abort f, s).

Definition gets {S A : Type} (f : S -> A) : M S A := fun s => (Done (f s), s).

Definition modify {S : Type} (f : S -> S) : M S unit := fun s => (Done tt, f s).

Declare Scope mon_scope.
Delimit Scope mon_scope with mon.
Notation "'let*' x ':=' m 'in' k" := (bind m (fun x => k))
  (at level 10, x name, m at level 100, k at level 200) : mon_scope.
Notation "m >> k" := (bind m (fun _ => k))
  (at level 100, k at level 200, right associativity) : mon_scope.
Open Scope mon_scope.

(** [assert(e)] *)
Definition assert {S : Type} (e : bool) : M S unit :=
  if e then ret tt else fail AssertionFailed.

(** What a computation returns and the state it leaves. *)
Definition outcome {S A : Type} (r : Outcome A * S) : Outcome A := fst r.
Definition final {S A : Type} (r : Outcome A * S) : S := snd r.

(** ** The serialization session

    The state a serialization runs in: the function list of the module
    being serialized, the three globals of [Serializer.cpp], the next
    address [new] hands out, and the records written through [LOG]. *)
Record Session : Type := {
  module_functions : list LFunction;
  dummy_block : option addr;
  dummy_function : option addr;
  dummy_instruction : option addr;
  heap_next : addr;
  LOG : list LogRecord }.

Definition set_module_functions (fs : list LFunction) (s : Session) : Session :=
  {| module_functions := fs; dummy_block := dummy_block s;
     dummy_function := dummy_function s;
     dummy_instruction := dummy_instruction s;
     heap_next := heap_next s; LOG := LOG s |}.

Definition set_dummy_block (p : option addr) (s : Session) : Session :=
  {| module_functions := module_functions s; dummy_block := p;
     dummy_function := dummy_function s;
     dummy_instruction := dummy_instruction s;
     heap_next := heap_next s; LOG := LOG s |}.

Definition set_dummy_function (p : option addr) (s : Session) : Session :=
  {| module_functions := module_functions s; dummy_block := dummy_block s;
     dummy_function := p;
     dummy_instruction := dummy_instruction s;
     heap_next := heap_next s; LOG := LOG s |}.

Definition set_dummy_instruction (p : option addr) (s : Session) : Session :=
  {| module_functions := module_functions s; dummy_block := dummy_block s;
     dummy_function := dummy_function s;
     dummy_instruction := p;
     heap_next := heap_next s; LOG := LOG s |}.

Definition set_heap_next (a : addr) (s : Session) : Session :=
  {| module_functions := module_functions s; dummy_block := dummy_block s;
     dummy_function := dummy_function s;
     dummy_instruction := dummy_instruction s;
     heap_next := a; LOG := LOG s |}.

Definition set_LOG (l : list LogRecord) (s : Session) : Session :=
  {| module_functions := module_functions s; dummy_block := dummy_block s;
     dummy_function := dummy_function s;
     dummy_instruction := dummy_instruction s;
     heap_next := heap_next s; LOG := l |}.

(** Modelled from the spec: the body of [Logger::record], which the header
    only declares.  The logging facility is an external collaborator; a
    message of a recoverable level is written and the caller continues.  The
    session keeps every record in the order of the calls. *)
Definition record (level : Logger.Level) (format : string) (args : list LogArg)
  : M Session unit :=
  modify (fun s =>
    set_LOG (LOG s ++ [{| rec_level := level; rec_format := format;
                          rec_args := args |}]) s).

(** Log an error message: [record(Level::Error, formatv(fmt, vals...))]. *)
Definition error (format : string) (args : list LogArg) : M Session unit :=
  record Logger.Error format args.

(** Modelled from the spec: [Logger::fatal], which the serializer calls;
    the logger header declares the recoverable levels only.  A fatal message
    aborts the current serialization: the call does not return, and the
    failure carries the message. *)
Definition fatal {A : Type} (format : string) (args : list LogArg)
  : M Session A :=
  fail (Fatal format args).

(** ** The IR operations the serializer calls

    The effect of each call on the function list of the module, as the IR
    library documents it. *)

(** [new]: the next free address. *)
Definition alloc : M Session addr :=
  let* a := gets heap_next in
  modify (set_heap_next (a + 1)) >>
  ret a.

(** [Function::Create(Ty, Linkage, Name, &M)]: the new function has no
    block and is appended to the function list of the module [M]. *)
Definition Function_Create (Ty : LType) (Linkage : LinkageTypes)
    (Name : string) : M Session addr :=
  let* a := alloc in
  modify (fun s =>
    set_module_functions
      (module_functions s ++
       [{| fn_addr := a; fn_name := Name; fn_linkage := Linkage;
           fn_type := Ty; fn_blocks := [] |}]) s) >>
  ret a.

Definition append_block (Parent : addr) (b : BasicBlock) (f : LFunction)
  : LFunction :=
  if fn_addr f =? Parent
  then {| fn_addr := fn_addr f; fn_name := fn_name f;
          fn_linkage := fn_linkage f; fn_type := fn_type f;
          fn_blocks := fn_blocks f ++ [b] |}
  else f.

(** [BasicBlock::Create(Context, Name, Parent)]: the new block is empty and
    is appended to the blocks of [Parent]. *)
Definition BasicBlock_Create (Name : string) (Parent : addr) : M Session addr :=
  let* a := alloc in
  modify (fun s =>
    set_module_functions
      (map (append_block Parent
              {| bb_addr := a; bb_name := Name; bb_insts := [] |})
           (module_functions s)) s) >>
  ret a.

Definition map_blocks (g : BasicBlock -> BasicBlock) (f : LFunction)
  : LFunction :=
  {| fn_addr := fn_addr f; fn_name := fn_name f;
     fn_linkage := fn_linkage f; fn_type := fn_type f;
     fn_blocks := map g (fn_blocks f) |}.

Definition append_inst (InsertAtEnd : addr) (i : Instruction) (b : BasicBlock)
  : BasicBlock :=
  if bb_addr b =? InsertAtEnd
  then {| bb_addr := bb_addr b; bb_name := bb_name b;
          bb_insts := bb_insts b ++ [i] |}
  else b.

(** [new UnreachableInst(Context, InsertAtEnd)]: the new instruction is
    appended to the block [InsertAtEnd]. *)
Definition UnreachableInst_new (InsertAtEnd : addr) : M Session addr :=
  let* a := alloc in
  modify (fun s =>
    set_module_functions
      (map (map_blocks
              (append_inst InsertAtEnd
                 {| inst_addr := a; inst_opcode := Unreachable;
                    inst_type := VoidTy; inst_operands := [] |}))
           (module_functions s)) s) >>
  ret a.

(** Insertion of [i] in an instruction list, before the instruction at
    address [pos]; a list that does not hold [pos] is left as it is. *)
Fixpoint insert_before (pos : addr) (i : Instruction) (l : list Instruction)
  : list Instruction :=
  match l with
  | [] => []
  | x :: l' =>
      if inst_addr x =? pos then i :: x :: l'
      else x :: insert_before pos i l'
  end.

Definition insert_in_block (pos : addr) (i : Instruction) (b : BasicBlock)
  : BasicBlock :=
  {| bb_addr := bb_addr b; bb_name := bb_name b;
     bb_insts := insert_before pos i (bb_insts b) |}.

(** [ConstantExpr::getAsInstruction(InsertBefore)]: a new instruction with
    the opcode, the type and the operands of the expression; when
    [InsertBefore] is not null the instruction is inserted before it, in
    the block that holds it. *)
Definition getAsInstruction (ty : LType) (opcode : N) (operands : list Constant)
    (InsertBefore : option addr) : M Session Instruction :=
  let* a := alloc in
  let inst := {| inst_addr := a; inst_opcode := opcode; inst_type := ty;
                 inst_operands := operands |} in
  match InsertBefore with
  | Some pos =>
      modify (fun s =>
        set_module_functions
          (map (map_blocks (insert_in_block pos inst)) (module_functions s)) s) >>
      ret inst
  | None => ret inst
  end.

(** ** The synthetic scope *)

(** [void prepare_for_serialization(Module &module)] *)
Definition prepare_for_serialization : M Session unit :=
  let* f :=
    Function_Create (FunctionTy VoidTy [] false) InternalLinkage "" in
  modify (set_dummy_function (Some f)) >>
  let* b := BasicBlock_Create "" f in
  modify (set_dummy_block (Some b)) >>
  let* i := UnreachableInst_new b in
  modify (set_dummy_instruction (Some i)).

(** ** The function serialization context *)

(** Modelled from the spec: the class declaration of
    [FunctionSerializationContext], which [Serializer.h] holds.  The context
    owns three independent label maps, block to index, instruction to index
    and argument to index, each keyed by the identity of the entity. *)
Record FunctionSerializationContext : Type := {
  block_labels_ : gmap addr N;
  inst_labels_ : gmap addr N;
  arg_labels_ : gmap addr N }.

(** [FunctionSerializationContext ctxt;] *)
Definition fresh_context : FunctionSerializationContext :=
  {| block_labels_ := ∅; inst_labels_ := ∅; arg_labels_ := ∅ |}.

(** [map::emplace(key, value)]: inserts when the key is absent; the second
    component of the result tells whether the insertion took place. *)
Definition emplace (key : addr) (value : N) (m : gmap addr N)
  : gmap addr N * bool :=
  match m !! key with
  | Some _ => (m, false)
  | None => (<[key := value]> m, true)
  end.

(** [map::at(key)]: throws [std::out_of_range] when the key is absent. *)
Definition at_ {S : Type} (m : gmap addr N) (key : addr) : M S N :=
  match m !! key with
  | Some v => ret v
  | None => fail OutOfRange
  end.

(** The label of a new entity is the [size()] of its map, a [size_t] that
    counts the entries exactly. *)
Definition add_block (block : addr) : M FunctionSerializationContext unit :=
  let* index := gets (fun c => N.of_nat (size (block_labels_ c))) in
  let* res := gets (fun c => emplace block index (block_labels_ c)) in
  modify (fun c => {| block_labels_ := fst res;
                      inst_labels_ := inst_labels_ c;
                      arg_labels_ := arg_labels_ c |}) >>
  assert (snd res).

Definition add_instruction (inst : addr) : M FunctionSerializationContext unit :=
  let* index := gets (fun c => N.of_nat (size (inst_labels_ c))) in
  let* res := gets (fun c => emplace inst index (inst_labels_ c)) in
  modify (fun c => {| block_labels_ := block_labels_ c;
                      inst_labels_ := fst res;
                      arg_labels_ := arg_labels_ c |}) >>
  assert (snd res).

Definition add_argument (arg : addr) : M FunctionSerializationContext unit :=
  let* index := gets (fun c => N.of_nat (size (arg_labels_ c))) in
  let* res := gets (fun c => emplace arg index (arg_labels_ c)) in
  modify (fun c => {| block_labels_ := block_labels_ c;
                      inst_labels_ := inst_labels_ c;
                      arg_labels_ := fst res |}) >>
  assert (snd res).

Definition get_block (block : addr) : M FunctionSerializationContext N :=
  let* m := gets block_labels_ in at_ m block.

Definition get_instruction (inst : addr) : M FunctionSerializationContext N :=
  let* m := gets inst_labels_ in at_ m inst.

Definition get_argument (arg : addr) : M FunctionSerializationContext N :=
  let* m := gets arg_labels_ in at_ m arg.

(** [json::Value(StringRef V)]: a JSON string must be valid UTF-8, and the
    constructor asserts that it is (past the assertion, in a build with
    [NDEBUG], it would go on with the string repaired by [fixUTF8]). *)
Definition json_string {S : Type} (V : string) : M S Json :=
  assert (isUTF8 V) >>
  ret (JString V).

(** ** [SerializeConstant.cpp] *)

Section Serializer.

(** The configured width limit, the printer of floating-point values, and
    the two encoders the constant serializer defers to, the type encoder and
    the instruction encoder, are defined outside of it: they are the
    parameters of the embedding. *)
Variable OPT_MAX_BITS_FOR_INT : N.
Variable APFloat_toString : APFloat -> string.
Variable serialize_type : LType -> M Session Json.
Variable serialize_inst :
  FunctionSerializationContext -> Instruction -> M Session Json.

(** The loop of [serialize_const_data_sequence] and of
    [serialize_const_pack_aggregate]: [elements.push_back] of the encoding
    of each element, by increasing index. *)
Definition push_back_each (serialize_constant : Constant -> M Session Json)
  : list Constant -> list Json -> M Session (list Json) :=
  fix loop (rest : list Constant) (elements : list Json) :=
    match rest with
    | [] => ret elements
    | x :: rest' =>
        let* e := serialize_constant x in
        loop rest' (elements ++ [e])%list
    end.

(** The functions below that call [serialize_constant] take it as their
    first argument; [serialize_const] closes the recursion. *)
Definition serialize_const_data_sequence
    (serialize_constant : Constant -> M Session Json)
    (val : list Constant) : M Session Json :=
  let result := obj_empty in
  let* elements := push_back_each serialize_constant val [] in
  let result := obj_set "elements" (JArray elements) result in
  ret (JObject result).

Definition serialize_const_pack_aggregate
    (serialize_constant : Constant -> M Session Json)
    (val : list Constant) : M Session Json :=
  let result := obj_empty in
  let* elements := push_back_each serialize_constant val [] in
  let result := obj_set "elements" (JArray elements) result in
  ret (JObject result).

Definition serialize_const_ref_global (name : string) : M Session Json :=
  let result := obj_empty in
  let* result :=
    if hasName name
    then let* v := json_string name in ret (obj_set "name" v result)
    else ret result in
  ret (JObject result).

(** The argument of the fatal message is the unsigned value, which the
    source prints in decimal. *)
Definition serialize_const_data_int (val : APInt) : M Session Json :=
  let result := obj_empty in
  (if OPT_MAX_BITS_FOR_INT <? BitWidth val
   then error "constant integer width exceeds limit: {0}"
          [ArgUnsigned (BitWidth val)]
   else ret tt) >>
  (if ugt val UINT64_MAX
   then fatal "constant integer value exceeds limit: {0}"
          [ArgUnsigned (zext val)]
   else ret tt) >>
  let result :=
    obj_set "value" (JUInt (getLimitedValue val UINT64_MAX)) result in
  ret (JObject result).

Definition serialize_const_data_float (val : APFloat) : M Session Json :=
  let result := obj_empty in
  let dump := APFloat_toString val in
  let result := obj_set "value" (JString dump) result in
  ret (JObject result).

Definition serialize_const_data_array := serialize_const_data_sequence.
Definition serialize_const_data_vector := serialize_const_data_sequence.
Definition serialize_const_pack_array := serialize_const_pack_aggregate.
Definition serialize_const_pack_struct := serialize_const_pack_aggregate.
Definition serialize_const_pack_vector := serialize_const_pack_aggregate.
Definition serialize_const_ref_global_variable := serialize_const_ref_global.
Definition serialize_const_ref_function := serialize_const_ref_global.
Definition serialize_const_ref_global_alias := serialize_const_ref_global.
Definition serialize_const_ref_interface := serialize_const_ref_global.

Definition serialize_const_expr (ty : LType) (opcode : N)
    (operands : list Constant) : M Session Json :=
  let result := obj_empty in
  let ctxt := fresh_context in
  let* InsertBefore := gets dummy_instruction in
  let* inst := getAsInstruction ty opcode operands InsertBefore in
  let* i := serialize_inst ctxt inst in
  let result := obj_set "inst" i result in
  ret (JObject result).

(** The body of [serialize_constant], over the [serialize_const] it
    calls. *)
Definition serialize_constant_body
    (serialize_const : Constant -> M Session Json)
    (val : Constant) : M Session Json :=
  let result := obj_empty in
  let* ty := serialize_type (getType val) in
  let result := obj_set "ty" ty result in
  let* repr := serialize_const val in
  let result := obj_set "repr" repr result in
  ret (JObject result).

(** [result[tag] = payload; return result;] *)
Definition tagged (tag : string) (payload : M Session Json) : M Session Json :=
  let* p := payload in
  ret (JObject (obj_set tag p obj_empty)).

(** The cascade of [isa<>] tests is the case analysis on the class of the
    constant; the classes are disjoint, and the cases stand in the order of
    the tests. *)
Fixpoint serialize_const (val : Constant) : M Session Json :=
  let serialize_constant := serialize_constant_body serialize_const in
  match val with
  (* early filtering *)
  | CDSOLocalEquivalent _ => fatal "serializing a dso_local marker" []
  | CNoCFIValue _ => fatal "serializing a no-CFI marker" []
  (* constant data *)
  | CInt _ v => tagged "Int" (serialize_const_data_int v)
  | CFP _ v => tagged "Float" (serialize_const_data_float v)
  | CPointerNull _ => tagged "Null" (ret JNull)
  | CTokenNone _ => tagged "None" (ret JNull)
  | CTargetNone _ => tagged "Extension" (ret JNull)
  | CUndef _ => tagged "Undef" (ret JNull)
  | CAggregateZero _ => tagged "Default" (ret JNull)
  | CDataArray _ elements =>
      tagged "Array" (serialize_const_data_array serialize_constant elements)
  | CDataVector _ elements =>
      tagged "Vector" (serialize_const_data_vector serialize_constant elements)
  | CDataOther _ => fatal "unknown constant data: {0}" [ArgConstant val]
  (* constant block address *)
  | CBlockAddress _ => tagged "PC" (ret JNull)
  (* constant aggregate *)
  | CArray _ operands =>
      tagged "Array" (serialize_const_pack_array serialize_constant operands)
  | CStruct _ operands =>
      tagged "Struct" (serialize_const_pack_struct serialize_constant operands)
  | CVector _ operands =>
      tagged "Vector" (serialize_const_pack_vector serialize_constant operands)
  | CAggregateOther _ _ =>
      fatal "unknown constant aggregate: {0}" [ArgConstant val]
  (* reference to global declarations *)
  | CGlobalVariable _ name _ =>
      tagged "Variable" (serialize_const_ref_global_variable name)
  | CFunction _ name _ =>
      tagged "Function" (serialize_const_ref_function name)
  | CGlobalAlias _ name _ =>
      tagged "Alias" (serialize_const_ref_global_alias name)
  | CGlobalIFunc _ name _ =>
      tagged "Interface" (serialize_const_ref_interface name)
  | CGlobalOther _ _ _ =>
      fatal "unknown constant reference to global value: {0}"
        [ArgConstant val]
  (* constant expression *)
  | CExpr ty opcode operands =>
      tagged "Expr" (serialize_const_expr ty opcode operands)
  (* should have exhausted all types of constant *)
  | COther _ => fatal "unknown constant: {0}" [ArgConstant val]
  end.

Definition serialize_constant : Constant -> M Session Json :=
  serialize_constant_body serialize_const.

End Serializer.

(** ** Definitions used to state the properties *)

(** The list [[encode(a1), ..., encode(an)]] of an ordered element list, as
    the specification writes it: each element encoded in turn, the
    encodings kept in the order of the elements. *)
Fixpoint encode_all (encode : Constant -> M Session Json) (l : list Constant)
  : M Session (list Json) :=
  match l with
  | [] => ret []
  | a :: l' =>
      let* j := encode a in
      let* js := encode_all encode l' in
      ret (j :: js)
  end.

(** The record an integer constant is encoded as. *)
Definition Int_record (v : N) : Json :=
  JObject [("Int", JObject [("value", JUInt v)])].

(** The record written by the width check of [serialize_const_data_int]. *)
Definition width_error (w : N) : LogRecord :=
  {| rec_level := Logger.Error;
     rec_format := "constant integer width exceeds limit: {0}";
     rec_args := [ArgUnsigned w] |}.

(** The reference object of a global value. *)
Definition reference_object (name : string) : Json :=
  if hasName name then JObject [("name", JString name)] else JObject [].



(** *** Label maps *)

(** An entity a context labels, with the map it belongs to. *)
Inductive Entity : Type :=
| Block (a : addr)
| Inst (a : addr)
| Arg (a : addr).

Definition add (e : Entity) : M FunctionSerializationContext unit :=
  match e with
  | Block a => add_block a
  | Inst a => add_instruction a
  | Arg a => add_argument a
  end.

Definition get (e : Entity) : M FunctionSerializationContext N :=
  match e with
  | Block a => get_block a
  | Inst a => get_instruction a
  | Arg a => get_argument a
  end.

(** A sequence of [add_*] calls, in order. *)
Fixpoint add_all (es : list Entity) : M FunctionSerializationContext unit :=
  match es with
  | [] => ret tt
  | e :: es' => add e >> add_all es'
  end.

(** The entities [e] and [x] belong to the same map. *)
Definition same_map (e x : Entity) : bool :=
  match e, x with
  | Block _, Block _ | Inst _, Inst _ | Arg _, Arg _ => true
  | _, _ => false
  end.

(** The entities added to the map of [e] among a sequence of additions, in
    the order they were added. *)
Definition added_to_map_of (e : Entity) (es : list Entity) : list Entity :=
  filter (fun x => same_map e x = true) es.

(** The map of the context [c] that the entity [e] belongs to, and the
    key of [e] in it. *)
Definition map_of (e : Entity) (c : FunctionSerializationContext)
  : gmap addr N :=
  match e with
  | Block _ => block_labels_ c
  | Inst _ => inst_labels_ c
  | Arg _ => arg_labels_ c
  end.

Definition addr_of (e : Entity) : addr :=
  match e with Block a | Inst a | Arg a => a end.

(** The maps of the context [c] hold the labels of the additions [es]:
    in each map, the entities added to it, each at its position in the
    order of addition, and nothing else. *)
Definition labels_follow (es : list Entity) (c : FunctionSerializationContext)
  : Prop :=
  forall e,
    size (map_of e c) = length (added_to_map_of e es)
    /\ (forall (i : nat) x, added_to_map_of e es !! i = Some x ->
          map_of e c !! addr_of x = Some (N.of_nat i))
    /\ (forall x, same_map e x = true -> x ∉ es ->
          map_of e c !! addr_of x = None).

(** The context [c] with the map of the entity [e] replaced by [m]. *)
Definition set_map_of (e : Entity) (m : gmap addr N)
    (c : FunctionSerializationContext) : FunctionSerializationContext :=
  match e with
  | Block _ => {| block_labels_ := m; inst_labels_ := inst_labels_ c;
                  arg_labels_ := arg_labels_ c |}
  | Inst _ => {| block_labels_ := block_labels_ c; inst_labels_ := m;
                 arg_labels_ := arg_labels_ c |}
  | Arg _ => {| block_labels_ := block_labels_ c;
                inst_labels_ := inst_labels_ c; arg_labels_ := m |}
  end.

(** Equality of entities is decidable. *)
#[global] Instance Entity_eq_dec : EqDecision Entity.
Proof. solve_decision. Defined.

(** A call of a const method of the context [ctxt] from a computation of
    the session. *)
Definition with_context {A : Type} (ctxt : FunctionSerializationContext)
    (m : M FunctionSerializationContext A) : M Session A :=
  fun s => (outcome (m ctxt), s).

(** *** Instructions of the same shape *)

Definition same_shape (i i' : Instruction) : Prop :=
  inst_opcode i = inst_opcode i' /\ inst_type i = inst_type i' /\
  inst_operands i = inst_operands i'.

(** [{"Expr": {"inst": I}}] *)
Definition Expr_record (I : Json) : Json :=
  JObject [("Expr", JObject [("inst", I)])].

(** *** What a serialization leaves of the module *)

(** The synthetic function as [prepare_for_serialization] builds it, from
    the address [a] on. *)
Definition synthetic_function (a : addr) : LFunction :=
  {| fn_addr := a; fn_name := ""; fn_linkage := InternalLinkage;
     fn_type := FunctionTy VoidTy [] false;
     fn_blocks :=
       [{| bb_addr := a + 1; bb_name := "";
           bb_insts := [{| inst_addr := a + 2; inst_opcode := Unreachable;
                           inst_type := VoidTy; inst_operands := [] |}] |}] |}.

(** No function or block of the module lives at an address [new] has yet
    to hand out. *)
Definition heap_fresh (s : Session) : Prop :=
  Forall (fun f => fn_addr f < heap_next s /\
                   Forall (fun b => bb_addr b < heap_next s) (fn_blocks f))
         (module_functions s).

(** The function [f] holds the instruction at [pos]. *)
Definition holds (pos : option addr) (f : LFunction) : bool :=
  match pos with
  | Some p =>
      existsb (fun b => existsb (fun i => inst_addr i =? p) (bb_insts b))
              (fn_blocks f)
  | None => false
  end.

(** [f'] is the function [f], the same in every respect unless [f] holds
    the instruction at [pos]. *)
Definition function_kept (pos : option addr) (f f' : LFunction) : Prop :=
  fn_addr f' = fn_addr f /\ fn_name f' = fn_name f /\
  fn_linkage f' = fn_linkage f /\ fn_type f' = fn_type f /\
  (holds pos f = false -> f' = f).

(** From [s] to [s'] no function was added to or removed from the module,
    and none was changed but the one that holds the synthetic
    instruction. *)
Definition module_kept (s s' : Session) : Prop :=
  dummy_instruction s' = dummy_instruction s /\
  Forall2 (function_kept (dummy_instruction s))
          (module_functions s) (module_functions s').

(** The computation [m] keeps the module, from every session. *)
Definition keeps_module {A : Type} (m : M Session A) : Prop :=
  forall s, module_kept s (final (m s)).

(** What the computation [m] returns does not depend on the session. *)
Definition session_independent {A : Type} (m : M Session A) : Prop :=
  forall s s', outcome (m s) = outcome (m s').

(** *** Instruction encoders that look a label up *)

(** An instruction encoder that, after a first part [pre], asks the context
    it was given for the label of an entity and goes on with [k]. *)
Definition lookup_encoder {X : Type}
    (pre : FunctionSerializationContext -> Instruction -> M Session X)
    (needs : X -> Entity) (k : X -> N -> M Session Json)
    (ctxt : FunctionSerializationContext) (inst : Instruction)
  : M Session Json :=
  let* x := pre ctxt inst in
  let* label := with_context ctxt (get (needs x)) in
  k x label.

(** A session and encoders to evaluate the serializer on: a module with one
    function, no synthetic scope yet; a type encoder that names the integer
    width; an instruction encoder that gives the opcode. *)
Definition sample_function : LFunction :=
  {| fn_addr := 10; fn_name := "main"; fn_linkage := ExternalLinkage;
     fn_type := FunctionTy (IntegerTy 32) [] false;
     fn_blocks :=
       [{| bb_addr := 11; bb_name := "entry";
           bb_insts := [{| inst_addr := 12; inst_opcode := Unreachable;
                           inst_type := VoidTy; inst_operands := [] |}] |}] |}.

Definition sample_session : Session :=
  {| module_functions := [sample_function];
     dummy_block := None; dummy_function := None; dummy_instruction := None;
     heap_next := 100; LOG := [] |}.

Definition sample_serialize_type (t : LType) : M Session Json :=
  match t with
  | IntegerTy w => ret (JObject [("Int", JUInt w)])
  | _ => ret JNull
  end.

Definition sample_serialize_inst (ctxt : FunctionSerializationContext)
    (inst : Instruction) : M Session Json :=
  ret (JObject [("opcode", JUInt (inst_opcode inst))]).

Definition sample_toString (v : APFloat) : string := "0".

(** A cast of the integer constant [42], as a constant expression. *)
Definition sample_expr : Constant :=
  CExpr (IntegerTy 64) 49 [CInt (IntegerTy 32) {| BitWidth := 32; zext := 42 |}].

(** *** Classes and tags *)

(** The tags of the closed encoding. *)
Definition closed_tags : list string :=
  ["Int"; "Float"; "Null"; "None"; "Extension"; "Undef"; "Default";
   "Array"; "Vector"; "PC"; "Struct"; "Variable"; "Function"; "Alias";
   "Interface"; "Expr"].

(** The classes that are encoded element by element. *)
Definition elementwise_classes : list (LType -> list Constant -> Constant) :=
  [CArray; CStruct; CVector; CDataArray; CDataVector].

(** The classes of global values the dispatcher knows, with their tags. *)
Definition global_classes
  : list ((LType -> string -> option Constant -> Constant) * string) :=
  [(CGlobalVariable, "Variable"); (CFunction, "Function");
   (CGlobalAlias, "Alias"); (CGlobalIFunc, "Interface")].

(** The value of an [APInt] fits its bit width. *)
Definition APInt_wf (v : APInt) : Prop := zext v < 2 ^ BitWidth v.

(** The constant is or holds a constant expression, among its elements or
    operands at any depth. *)
Fixpoint has_expr (val : Constant) : bool :=
  match val with
  | CExpr _ _ _ => true
  | CDataArray _ l | CDataVector _ l | CArray _ l | CStruct _ l
  | CVector _ l | CAggregateOther _ l => existsb has_expr l
  | _ => false
  end.

(** *** The synthetic scope in use *)

(** No instruction of the module lives at an address [new] has yet to hand
    out. *)
Definition insts_fresh (s : Session) : Prop :=
  Forall (fun f =>
            Forall (fun b => Forall (fun i => inst_addr i < heap_next s)
                                    (bb_insts b))
                   (fn_blocks f))
         (module_functions s).

(** The synthetic function at [a] with the instructions [insts] before its
    terminator. *)
Definition synthetic_with (a : addr) (insts : list Instruction) : LFunction :=
  {| fn_addr := a; fn_name := ""; fn_linkage := InternalLinkage;
     fn_type := FunctionTy VoidTy [] false;
     fn_blocks :=
       [{| bb_addr := a + 1; bb_name := "";
           bb_insts :=
             insts ++ [{| inst_addr := a + 2; inst_opcode := Unreachable;
                          inst_type := VoidTy; inst_operands := [] |}] |}] |}.

(** A constant expression: its type, opcode and operands. *)
Definition expr_of (e : LType * N * list Constant) : Constant :=
  match e with (ty, opcode, operands) => CExpr ty opcode operands end.

(** The instructions a sequence of constant expressions is materialized
    as, at the addresses from [a] on. *)
Fixpoint materialized (a : addr) (es : list (LType * N * list Constant))
  : list Instruction :=
  match es with
  | [] => []
  | (ty, opcode, operands) :: es' =>
      {| inst_addr := a; inst_opcode := opcode; inst_type := ty;
         inst_operands := operands |} :: materialized (a + 1) es'
  end.

(** What the synthetic scope rests on in a session. *)
Definition scope_view (s : Session)
  : list LFunction * option addr * addr :=
  (module_functions s, dummy_instruction s, heap_next s).

(** From [s] to [s'] the log was only added to, no address was handed
    back, and the three globals of the synthetic scope point where they
    did. *)
Definition session_extends (s s' : Session) : Prop :=
  (exists added, LOG s' = LOG s ++ added)
  /\ heap_next s <= heap_next s'
  /\ dummy_block s' = dummy_block s
  /\ dummy_function s' = dummy_function s
  /\ dummy_instruction s' = dummy_instruction s.

(** The session holds the synthetic scope at [a], after the functions
    [fs], with the instructions [mats] materialized so far. *)
Definition scope_at (fs : list LFunction) (a : addr)
    (mats : list Instruction) (s : Session) : Prop :=
  module_functions s = fs ++ [synthetic_with a mats]
  /\ dummy_instruction s = Some (a + 2)
  /\ a + 2 < heap_next s
  /\ Forall (fun f => holds (Some (a + 2)) f = false) fs
  /\ Forall (fun x => inst_addr x <> a + 2) mats.

(** ** The default logger ([Shared/Logger.h]) *)

Module DefaultLogger.

(** The logger object: its level and its time-stamp flag (its stream is
    always the standard error stream). *)
Record Logger : Type := {
  target_level_ : Logger.Level;
  no_timestamp_ : bool }.

(** [std::unique_ptr<Logger> LOG]: the global logger, or null. *)
Definition global := option Logger.

(** Create and initialize the default logger. *)
Definition init_default_logger (level : Logger.Level) (no_timestamp : bool)
  : M global unit :=
  let* cur := gets (fun g : global => g) in
  assert (match cur with None => true | Some _ => false end) >>
  modify (fun _ : global =>
            Some {| target_level_ := level; no_timestamp_ := no_timestamp |}).

(** Destroy the default logger and release it. *)
Definition destroy_default_logger : M global unit :=
  let* cur := gets (fun g : global => g) in
  assert (match cur with None => false | Some _ => true end) >>
  modify (fun _ : global => None).

(** A call of the life cycle of the default logger. *)
Inductive Call : Type :=
| Init (level : Logger.Level) (no_timestamp : bool)
| Destroy.

Definition call (c : Call) : M global unit :=
  match c with
  | Init level no_timestamp => init_default_logger level no_timestamp
  | Destroy => destroy_default_logger
  end.

Fixpoint calls (cs : list Call) : M global unit :=
  match cs with
  | [] => ret tt
  | c :: cs' => call c >> calls cs'
  end.

(** The calls alternate between creation and destruction, starting with
    a creation exactly when no logger is [live]. *)
Fixpoint alternate (live : bool) (cs : list Call) : bool :=
  match cs with
  | [] => true
  | Init _ _ :: cs' => negb live && alternate true cs'
  | Destroy :: cs' => live && alternate false cs'
  end.

(** The logger the calls leave, when they all return. *)
Fixpoint left_by (g : global) (cs : list Call) : global :=
  match cs with
  | [] => g
  | Init level no_timestamp :: cs' =>
      left_by (Some {| target_level_ := level;
                       no_timestamp_ := no_timestamp |}) cs'
  | Destroy :: cs' => left_by None cs'
  end.

Definition is_live (g : global) : bool :=
  match g with Some _ => true | None => false end.

End DefaultLogger.

(** The entity of the map of [e] at the address [k]. *)
Definition at_addr (e : Entity) (k : addr) : Entity :=
  match e with
  | Block _ => Block k
  | Inst _ => Inst k
  | Arg _ => Arg k
  end.

(** An integer constant: its type and its value. *)
Definition int_of (p : LType * APInt) : Constant := CInt (fst p) (snd p).

(** The width errors of the integers [vs] that are wider than [limit], in
    the order of the integers. *)
Definition width_errors (limit : N) (vs : list APInt) : list LogRecord :=
  map (fun v => width_error (BitWidth v))
      (List.filter (fun v => limit <? BitWidth v) vs).

(** *** What a serialization adds to the module *)





(** * Properties *)

(** The case of an aggregate or a data sequence in an induction on the
    constant: the property holds of the tagged element list as soon as it
    holds of the encoding of each element. *)
Ltac elementwise under_tag of_elements of_body :=
  let IH := fresh "IH" in
  intros ? ? IH; simpl;
  apply under_tag, of_elements;
  eapply Forall_impl; [exact IH|];
  let Hx := fresh "Hx" in
  intros ? Hx; apply of_body, Hx.

(** ** The monad *)

Lemma bind_Done {S A B : Type} (m : M S A) (k : A -> M S B) s a s' :
  m s = (Done a, s') -> bind m k s = k a s'.
Proof. intros H. unfold bind. now rewrite H. Qed.

Lemma bind_Abort {S A B : Type} (m : M S A) (k : A -> M S B) s f s' :
  m s = (Abort f, s') -> bind m k s = (Abort f, s').
Proof. intros H. unfold bind. now rewrite H. Qed.

Lemma bind_ret_l {S A B : Type} (a : A) (k : A -> M S B) s :
  bind (ret a) k s = k a s.
Proof. reflexivity. Qed.

Lemma bind_assoc {S A B C : Type} (m : M S A) (k : A -> M S B)
    (h : B -> M S C) s :
  bind (bind m k) h s = bind m (fun a => bind (k a) h) s.
Proof. unfold bind. destruct (m s) as [[a|f] s']; reflexivity. Qed.

Lemma bind_ext {S A B : Type} (m : M S A) (k k' : A -> M S B) s :
  (forall a s', k a s' = k' a s') -> bind m k s = bind m k' s.
Proof. intros H. unfold bind. destruct (m s) as [[a|f] s']; auto. Qed.

(** ** The function serialization context *)

Lemma emplace_absent key value (m : gmap addr N) :
  m !! key = None -> emplace key value m = (<[key := value]> m, true).
Proof. intros H. unfold emplace. now rewrite H. Qed.

Lemma emplace_present key value (m : gmap addr N) v :
  m !! key = Some v -> emplace key value m = (m, false).
Proof. intros H. unfold emplace. now rewrite H. Qed.

Lemma add_absent (e : Entity) (c : FunctionSerializationContext) :
  map_of e c !! addr_of e = None ->
  add e c
  = (Done tt,
     set_map_of e (<[addr_of e := N.of_nat (size (map_of e c))]> (map_of e c)) c).
Proof.
  intros H. destruct e; simpl in *;
    unfold add_block, add_instruction, add_argument, bind, gets, modify;
    simpl; rewrite (emplace_absent _ _ _ H); reflexivity.
Qed.

Lemma add_present (e : Entity) (c : FunctionSerializationContext) v :
  map_of e c !! addr_of e = Some v ->
  add e c = (Abort AssertionFailed, c).
Proof.
  intros H. destruct e, c; simpl in *;
    unfold add_block, add_instruction, add_argument, bind, gets, modify;
    simpl; rewrite (emplace_present _ _ _ _ H); reflexivity.
Qed.

Lemma get_eq (e : Entity) (c : FunctionSerializationContext) :
  get e c = (match map_of e c !! addr_of e with
             | Some v => Done v
             | None => Abort OutOfRange
             end, c).
Proof.
  destruct e; simpl; unfold get_block, get_instruction, get_argument,
    bind, gets, at_; simpl;
  match goal with |- context [?m !! ?k] => destruct (m !! k) end; reflexivity.
Qed.

Lemma labels_follow_fresh : labels_follow [] fresh_context.
Proof.
  intros e. split; [|split].
  - destruct e; reflexivity.
  - intros i x H. destruct e; discriminate H.
  - intros x _ _. destruct e; apply lookup_empty.
Qed.

Lemma same_map_entity_eq (e x : Entity) :
  same_map e x = true -> addr_of e = addr_of x -> e = x.
Proof. destruct e, x; simpl; intros; congruence. Qed.

Lemma added_snoc (e e0 : Entity) (es : list Entity) :
  added_to_map_of e (es ++ [e0])
  = (added_to_map_of e es ++ if same_map e e0 then [e0] else [])%list.
Proof.
  unfold added_to_map_of. rewrite filter_app. f_equal.
  destruct (same_map e e0) eqn:E.
  - rewrite filter_cons_True by exact E. reflexivity.
  - rewrite filter_cons_False by (rewrite E; discriminate). reflexivity.
Qed.

Lemma map_of_set_same (e e0 : Entity) m c :
  same_map e e0 = true -> map_of e (set_map_of e0 m c) = m.
Proof. destruct e, e0; simpl; intros; congruence. Qed.

Lemma map_of_set_other (e e0 : Entity) m c :
  same_map e e0 = false -> map_of e (set_map_of e0 m c) = map_of e c.
Proof. destruct e, e0; simpl; intros; congruence. Qed.

Lemma map_of_same (e e0 : Entity) c :
  same_map e e0 = true -> map_of e c = map_of e0 c.
Proof. destruct e, e0; simpl; intros; congruence. Qed.

Lemma same_map_refl e : same_map e e = true.
Proof. destruct e; reflexivity. Qed.

Lemma labels_follow_add (es : list Entity) (e0 : Entity)
    (c : FunctionSerializationContext) :
  labels_follow es c -> e0 ∉ es ->
  exists c', add e0 c = (Done tt, c') /\ labels_follow (es ++ [e0]) c'.
Proof.
  intros Inv Hnew.
  assert (Habs : map_of e0 c !! addr_of e0 = None).
  { apply (Inv e0); [apply same_map_refl | exact Hnew]. }
  eexists. split; [apply add_absent; exact Habs|].
  intros e. rewrite added_snoc. destruct (same_map e e0) eqn:E.
  - rewrite (map_of_set_same _ _ _ _ E).
    rewrite <- (map_of_same _ _ c E) in *.
    destruct (Inv e) as (Hsz & Hin & Hout).
    split; [|split].
    + rewrite map_size_insert_None by exact Habs.
      rewrite length_app. simpl. lia.
    + intros i x Hx. apply lookup_snoc_Some in Hx as [[Hlt Hx]|[Hi Hx]].
      * assert (x <> e0).
        { intros ->. apply Hnew.
          apply list_elem_of_lookup_2 in Hx.
          apply list_elem_of_filter in Hx. tauto. }
        rewrite lookup_insert_ne.
        -- apply Hin, Hx.
        -- intros Ha. apply H. symmetry.
           apply same_map_entity_eq; [|exact Ha].
           apply list_elem_of_lookup_2, list_elem_of_filter in Hx.
           destruct Hx as [Hx _]. destruct e, e0, x; simpl in *; congruence.
      * subst x. rewrite lookup_insert_eq. f_equal. f_equal. lia.
    + intros x Hk Hx. rewrite elem_of_app in Hx.
      rewrite lookup_insert_ne.
      * apply Hout; tauto.
      * intros Ha. apply Hx. right. apply list_elem_of_singleton.
        symmetry. apply same_map_entity_eq; [|exact Ha].
        destruct e, e0, x; simpl in *; congruence.
  - rewrite (map_of_set_other _ _ _ _ E). rewrite app_nil_r.
    destruct (Inv e) as (Hsz & Hin & Hout).
    split; [exact Hsz|split; [exact Hin|]].
    intros x Hk Hx. apply Hout; [exact Hk|].
    rewrite elem_of_app in Hx. tauto.
Qed.

Lemma labels_follow_add_all (es pre : list Entity)
    (c : FunctionSerializationContext) :
  labels_follow pre c -> NoDup (pre ++ es) ->
  outcome (add_all es c) = Done tt
  /\ labels_follow (pre ++ es) (final (add_all es c)).
Proof.
  revert pre c. induction es as [|e es IH]; intros pre c Inv Hnd.
  - simpl. rewrite app_nil_r. split; [reflexivity|exact Inv].
  - assert (He : e ∉ pre).
    { apply NoDup_app in Hnd as (_ & Hd & _). intros Hin.
      apply (Hd e Hin). left. }
    destruct (labels_follow_add pre e c Inv He) as (c' & Hadd & Inv').
    simpl. rewrite (bind_Done _ _ _ _ _ Hadd).
    replace (pre ++ e :: es) with ((pre ++ [e]) ++ es) in *
      by (rewrite <- app_assoc; reflexivity).
    apply IH; assumption.
Qed.

Lemma add_registers (e : Entity) (c c' : FunctionSerializationContext) :
  add e c = (Done tt, c') ->
  outcome (get e c') = Done (N.of_nat (size (map_of e c))).
Proof.
  intros H. destruct (map_of e c !! addr_of e) as [v|] eqn:E.
  - rewrite (add_present e c v E) in H. discriminate H.
  - rewrite (add_absent e c E) in H. injection H as <-.
    rewrite get_eq. simpl.
    rewrite (map_of_set_same e e _ c (same_map_refl e)).
    now rewrite lookup_insert_eq.
Qed.

(** C6.  From a fresh context, a sequence of [add_block],
    [add_instruction] and [add_argument] calls that adds no entity twice
    completes, and labels each map densely from zero in the order of the
    additions: an entity that was the [i]-th one added to its map (counting
    from zero) has the label [i], which the matching [get_*] returns; the
    [get_*] of an entity that was never added to that map does not return,
    it fails with the out-of-range error of the map lookup. *)
Theorem labels_dense_in_add_order (es : list Entity) :
  NoDup es ->
  outcome (add_all es fresh_context) = Done tt
  /\ (forall e (i : nat),
        added_to_map_of e es !! i = Some e ->
        get e (final (add_all es fresh_context))
        = (Done (N.of_nat i), final (add_all es fresh_context)))
  /\ (forall e,
        e ∉ es ->
        get e (final (add_all es fresh_context))
        = (Abort OutOfRange, final (add_all es fresh_context))).
Proof.
  intros Hnd.
  destruct (labels_follow_add_all es [] fresh_context labels_follow_fresh Hnd)
    as [Hdone Inv].
  simpl in Inv. split; [exact Hdone|]. split.
  - intros e i Hi. rewrite get_eq.
    destruct (Inv e) as (_ & Hin & _). now rewrite (Hin i e Hi).
  - intros e He. rewrite get_eq.
    destruct (Inv e) as (_ & _ & Hout).
    now rewrite (Hout e (same_map_refl e) He).
Qed.

Lemma labels_dense_in_add_order_witness :
  let c := final (add_all [Block 7; Inst 7; Block 9; Arg 3] fresh_context) in
  outcome (add_all [Block 7; Inst 7; Block 9; Arg 3] fresh_context) = Done tt
  /\ get (Block 7) c = (Done 0, c)
  /\ get (Block 9) c = (Done 1, c)
  /\ get (Inst 7) c = (Done 0, c)
  /\ get (Arg 3) c = (Done 0, c)
  /\ get (Block 3) c = (Abort OutOfRange, c).
Proof.
  assert (Hnd : NoDup [Block 7; Inst 7; Block 9; Arg 3])
    by (apply (bool_decide_unpack _); vm_compute; exact I).
  destruct (labels_dense_in_add_order _ Hnd) as (H1 & H2 & H3).
  cbv zeta. split; [exact H1|].
  split; [exact (H2 (Block 7) 0%nat eq_refl)|].
  split; [exact (H2 (Block 9) 1%nat eq_refl)|].
  split; [exact (H2 (Inst 7) 0%nat eq_refl)|].
  split; [exact (H2 (Arg 3) 0%nat eq_refl)|].
  apply H3. apply (bool_decide_unpack _). vm_compute. exact I.
Defined.

(** C7.  Adding an entity that is already registered in its map fails: the
    assertion of [add_*] is violated, the call does not return, and the
    context is left exactly as it was, the label assigned before
    included.  The [emplace] under the assertion does not touch the map of
    an entity that is registered, whatever index it is offered. *)
Theorem add_again_fails_and_keeps_label (e : Entity)
    (c : FunctionSerializationContext) (l : N) :
  outcome (get e c) = Done l ->
  add e c = (Abort AssertionFailed, c)
  /\ outcome (get e (final (add e c))) = Done l
  /\ (forall index,
        emplace (addr_of e) index (map_of e c) = (map_of e c, false)).
Proof.
  intros H. rewrite get_eq in H. simpl in H.
  destruct (map_of e c !! addr_of e) as [v|] eqn:E; [|discriminate H].
  injection H as ->.
  rewrite (add_present e c l E). split; [reflexivity|]. split.
  - simpl. rewrite get_eq. simpl. now rewrite E.
  - intros index. exact (emplace_present _ index _ l E).
Qed.

Lemma add_again_fails_and_keeps_label_witness :
  let c := final (add_all [Block 7; Block 9] fresh_context) in
  add (Block 9) c = (Abort AssertionFailed, c)
  /\ outcome (get (Block 9) (final (add (Block 9) c))) = Done 1
  /\ (forall index,
        emplace (addr_of (Block 9)) index (map_of (Block 9) c)
        = (map_of (Block 9) c, false)).
Proof.
  cbv zeta.
  apply (add_again_fails_and_keeps_label (Block 9)
           (final (add_all [Block 7; Block 9] fresh_context)) 1).
  vm_compute. reflexivity.
Defined.

(** ** The synthetic scope *)

Lemma append_block_other (Parent : addr) (b : BasicBlock) (fs : list LFunction) :
  Forall (fun f => fn_addr f < Parent) fs ->
  map (append_block Parent b) fs = fs.
Proof.
  induction 1 as [|f fs Hf Hfs IH]; simpl; [reflexivity|].
  rewrite IH. f_equal. unfold append_block.
  destruct (N.eqb_spec (fn_addr f) Parent); [lia | reflexivity].
Qed.

Lemma append_inst_other (InsertAtEnd : addr) (i : Instruction)
    (bs : list BasicBlock) :
  Forall (fun b => bb_addr b < InsertAtEnd) bs ->
  map (append_inst InsertAtEnd i) bs = bs.
Proof.
  induction 1 as [|b bs Hb Hbs IH]; simpl; [reflexivity|].
  rewrite IH. f_equal. unfold append_inst.
  destruct (N.eqb_spec (bb_addr b) InsertAtEnd); [lia | reflexivity].
Qed.

Lemma map_blocks_append_inst_other (InsertAtEnd : addr) (i : Instruction)
    (fs : list LFunction) :
  Forall (fun f => Forall (fun b => bb_addr b < InsertAtEnd) (fn_blocks f)) fs ->
  map (map_blocks (append_inst InsertAtEnd i)) fs = fs.
Proof.
  induction 1 as [|f fs Hf Hfs IH]; simpl; [reflexivity|].
  rewrite IH. f_equal. unfold map_blocks.
  rewrite (append_inst_other _ _ _ Hf). destruct f; reflexivity.
Qed.

Lemma prepare_for_serialization_eq (s : Session) :
  heap_fresh s ->
  prepare_for_serialization s
  = (Done tt,
     {| module_functions :=
          module_functions s ++ [synthetic_function (heap_next s)];
        dummy_block := Some (heap_next s + 1);
        dummy_function := Some (heap_next s);
        dummy_instruction := Some (heap_next s + 2);
        heap_next := heap_next s + 3;
        LOG := LOG s |}).
Proof.
  intros Hfresh. unfold heap_fresh in Hfresh.
  assert (H1 : Forall (fun f => fn_addr f < heap_next s) (module_functions s)).
  { eapply Forall_impl; [exact Hfresh|]. simpl. tauto. }
  assert (H2 : Forall (fun f => Forall (fun b => bb_addr b < heap_next s + 1)
                                  (fn_blocks f)) (module_functions s)).
  { eapply Forall_impl; [exact Hfresh|]. simpl. intros f [_ Hb].
    eapply Forall_impl; [exact Hb|]. simpl. intros b. lia. }
  unfold prepare_for_serialization, Function_Create, BasicBlock_Create,
    UnreachableInst_new, alloc, bind, gets, modify, ret. simpl.
  rewrite !map_app. simpl.
  rewrite (append_block_other _ _ _ H1).
  rewrite (map_blocks_append_inst_other _ _ _ H2).
  unfold append_block, map_blocks, append_inst. simpl.
  rewrite !N.eqb_refl. simpl.
  unfold synthetic_function.
  replace (heap_next s + 1 + 1) with (heap_next s + 2) by lia.
  replace (heap_next s + 2 + 1) with (heap_next s + 3) by lia.
  rewrite ?N.eqb_refl. reflexivity.
Qed.

Section SerializerProperties.
Variable OPT_MAX_BITS_FOR_INT : N.
Variable APFloat_toString : APFloat -> string.
Variable serialize_type : LType -> M Session Json.
Variable serialize_inst :
  FunctionSerializationContext -> Instruction -> M Session Json.

Local Abbreviation serialize_const' :=
  (serialize_const OPT_MAX_BITS_FOR_INT APFloat_toString serialize_type
     serialize_inst).
Local Abbreviation serialize_constant' :=
  (serialize_constant OPT_MAX_BITS_FOR_INT APFloat_toString serialize_type
     serialize_inst).

(** ** Integer constants *)

Lemma ugt_false_iff (v : APInt) (limit : N) :
  ugt v limit = false <-> zext v <= limit.
Proof. unfold ugt. rewrite N.ltb_ge. reflexivity. Qed.

Lemma getLimitedValue_fits (v : APInt) (limit : N) :
  zext v <= limit -> getLimitedValue v limit = zext v.
Proof.
  intros H. unfold getLimitedValue.
  now rewrite (proj2 (ugt_false_iff v limit) H).
Qed.

Lemma serialize_const_data_int_fits (v : APInt) (s : Session) :
  zext v <= UINT64_MAX ->
  serialize_const_data_int OPT_MAX_BITS_FOR_INT v s
  = (Done (JObject [("value", JUInt (zext v))]),
     if OPT_MAX_BITS_FOR_INT <? BitWidth v
     then set_LOG (LOG s ++ [width_error (BitWidth v)]) s
     else s).
Proof.
  intros H. unfold serialize_const_data_int.
  rewrite (getLimitedValue_fits v UINT64_MAX H).
  rewrite (proj2 (ugt_false_iff v UINT64_MAX) H).
  destruct (OPT_MAX_BITS_FOR_INT <? BitWidth v); reflexivity.
Qed.

Lemma serialize_const_data_int_exceeds (v : APInt) (s : Session) :
  UINT64_MAX < zext v ->
  serialize_const_data_int OPT_MAX_BITS_FOR_INT v s
  = (Abort (Fatal "constant integer value exceeds limit: {0}"
              [ArgUnsigned (zext v)]),
     if OPT_MAX_BITS_FOR_INT <? BitWidth v
     then set_LOG (LOG s ++ [width_error (BitWidth v)]) s
     else s).
Proof.
  intros H. unfold serialize_const_data_int.
  assert (Hu : ugt v UINT64_MAX = true) by (unfold ugt; now apply N.ltb_lt).
  rewrite Hu.
  destruct (OPT_MAX_BITS_FOR_INT <? BitWidth v); reflexivity.
Qed.

(** C1.  An integer constant whose unsigned value [v] is at most
    [UINT64_MAX] is encoded by [serialize_const] as
    [{"Int": {"value": v}}], whatever its bit width.  When the bit width
    exceeds the configured limit the only difference is one error record
    appended to the log; otherwise the session is left unchanged. *)
Theorem serialize_const_int_exact (ty : LType) (v : APInt) (s : Session) :
  zext v <= UINT64_MAX ->
  serialize_const' (CInt ty v) s
  = (Done (Int_record (zext v)),
     if OPT_MAX_BITS_FOR_INT <? BitWidth v
     then set_LOG (LOG s ++ [width_error (BitWidth v)]) s
     else s).
Proof.
  intros H. simpl. unfold tagged.
  erewrite bind_Done by (apply serialize_const_data_int_fits; exact H).
  reflexivity.
Qed.

(** C2.  An integer constant whose unsigned value exceeds [UINT64_MAX]
    makes [serialize_const] abort through [LOG->fatal], whatever its bit
    width; neither [serialize_const] nor [serialize_constant] returns a
    record for it. *)
Theorem serialize_const_int_exceeds_fatal (ty : LType) (v : APInt)
    (s : Session) :
  UINT64_MAX < zext v ->
  outcome (serialize_const' (CInt ty v) s)
  = Abort (Fatal "constant integer value exceeds limit: {0}"
             [ArgUnsigned (zext v)])
  /\ (forall j, outcome (serialize_const' (CInt ty v) s) <> Done j)
  /\ (forall j, outcome (serialize_constant' (CInt ty v) s) <> Done j).
Proof.
  intros H.
  assert (E : forall s0, outcome (serialize_const' (CInt ty v) s0)
            = Abort (Fatal "constant integer value exceeds limit: {0}"
                       [ArgUnsigned (zext v)])).
  { intros s0. simpl. unfold tagged.
    erewrite bind_Abort by (apply serialize_const_data_int_exceeds; exact H).
    reflexivity. }
  split; [apply E|]. split.
  - intros j. rewrite E. discriminate.
  - intros j. unfold serialize_constant, serialize_constant_body, bind.
    destruct (serialize_type (getType (CInt ty v)) s) as [[t|f] s1];
      [|discriminate].
    specialize (E s1).
    destruct (serialize_const' (CInt ty v) s1) as [[r|f] s2]; simpl in *;
      [discriminate E | discriminate].
Qed.

(** ** Global references *)

Lemma serialize_const_ref_global_eq (name : string) (s : Session) :
  serialize_const_ref_global name s
  = (if isUTF8 name then Done (reference_object name)
     else Abort AssertionFailed, s).
Proof.
  unfold serialize_const_ref_global, reference_object.
  destruct (hasName name) eqn:E.
  - unfold json_string, assert, bind, ret, fail.
    destruct (isUTF8 name); reflexivity.
  - unfold hasName in E. rewrite negb_false_iff in E.
    apply String.eqb_eq in E. subst name. reflexivity.
Qed.

Lemma tagged_reference (tag name : string) (s : Session) :
  tagged tag (serialize_const_ref_global name) s
  = (if isUTF8 name then Done (JObject [(tag, reference_object name)])
     else Abort AssertionFailed, s).
Proof.
  unfold tagged, bind. rewrite serialize_const_ref_global_eq.
  destruct (isUTF8 name); reflexivity.
Qed.

(** A string of bytes below [0x80] is valid UTF-8. *)
Lemma isLegalUTF8String_ascii (l : list N) :
  Forall (fun b => b < 128) l -> isLegalUTF8String l = true.
Proof.
  induction 1 as [|b l Hb Hl IH]; [reflexivity|]. simpl.
  destruct (N.ltb_spec b 128); [exact IH|lia].
Qed.

Lemma hasName_spec (name : string) : hasName name = false <-> name = "".
Proof.
  unfold hasName. rewrite negb_false_iff. apply String.eqb_eq.
Qed.



(** ** Aggregates and data sequences *)

Lemma push_back_each_encode_all (f : Constant -> M Session Json)
    (l : list Constant) (elements : list Json) (s : Session) :
  push_back_each f l elements s
  = (let* js := encode_all f l in ret (elements ++ js)%list) s.
Proof.
  revert elements s. induction l as [|x l IH]; intros elements s; simpl.
  - rewrite bind_ret_l. now rewrite app_nil_r.
  - rewrite bind_assoc. apply bind_ext. intros e s1.
    rewrite IH. rewrite bind_assoc. apply bind_ext. intros js s2.
    rewrite !bind_ret_l. now rewrite <- app_assoc.
Qed.

(** The encodings are as many as the elements. *)
Lemma encode_all_length (f : Constant -> M Session Json) (l : list Constant)
    (s s' : Session) (js : list Json) :
  encode_all f l s = (Done js, s') -> length js = length l.
Proof.
  revert s s' js. induction l as [|x l IH]; intros s s' js; simpl.
  - intros H. injection H as <- _. reflexivity.
  - unfold bind. destruct (f x s) as [[j|fl] s1]; [|discriminate].
    destruct (encode_all f l s1) as [[js'|fl] s2] eqn:E; [|discriminate].
    intros H. injection H as <- _. simpl. f_equal. exact (IH s1 s2 js' E).
Qed.

(** The payload [{"elements": js}] under a tag. *)
Lemma serialize_elements_eq (tag : string) (f : Constant -> M Session Json)
    (l : list Constant) (s : Session) :
  tagged tag (serialize_const_pack_aggregate f l) s
  = (let* js := encode_all f l in
     ret (JObject [(tag, JObject [("elements", JArray js)])])) s.
Proof.
  unfold tagged, serialize_const_pack_aggregate.
  rewrite bind_assoc.
  unfold bind at 1. rewrite push_back_each_encode_all.
  unfold bind. simpl.
  destruct (encode_all f l s) as [[js|fl] s1]; reflexivity.
Qed.

(** C3.  The payload of an array, struct or vector aggregate and of a dense
    data array or vector with the elements [a1, ..., an] is
    [{"elements": [encode(a1), ..., encode(an)]}], where [encode] is
    [serialize_constant] and the encodings stand in the order of the
    elements; a failure in an element is the failure of the whole. *)
Theorem aggregate_elements_in_order (ty : LType) (l : list Constant)
    (s : Session) :
  let elements_under (tag : string) :=
    (let* js := encode_all serialize_constant' l in
     ret (JObject [(tag, JObject [("elements", JArray js)])])) s in
  serialize_const' (CArray ty l) s = elements_under "Array"
  /\ serialize_const' (CStruct ty l) s = elements_under "Struct"
  /\ serialize_const' (CVector ty l) s = elements_under "Vector"
  /\ serialize_const' (CDataArray ty l) s = elements_under "Array"
  /\ serialize_const' (CDataVector ty l) s = elements_under "Vector".
Proof.
  cbv zeta. repeat split; simpl; apply serialize_elements_eq.
Qed.

(** ** Constant expressions *)

Lemma getAsInstruction_eq (ty : LType) (opcode : N) (operands : list Constant)
    (InsertBefore : option addr) (s : Session) :
  exists s',
    getAsInstruction ty opcode operands InsertBefore s
    = (Done {| inst_addr := heap_next s; inst_opcode := opcode;
               inst_type := ty; inst_operands := operands |}, s').
Proof.
  unfold getAsInstruction, alloc, bind, gets, modify, ret.
  destruct InsertBefore; eexists; reflexivity.
Qed.

Lemma serialize_const_expr_unfold (ty : LType) (opcode : N)
    (operands : list Constant) (s : Session) :
  serialize_const' (CExpr ty opcode operands) s
  = (let* inst :=
       getAsInstruction ty opcode operands (dummy_instruction s) in
     let* j := serialize_inst fresh_context inst in
     ret (Expr_record j)) s.
Proof.
  simpl. unfold tagged, serialize_const_expr.
  rewrite bind_assoc. unfold gets at 1. unfold bind at 1.
  rewrite bind_assoc. apply bind_ext. intros inst s1.
  rewrite bind_assoc. apply bind_ext. intros j s2. reflexivity.
Qed.

Lemma get_fresh_context (e : Entity) :
  get e fresh_context = (Abort OutOfRange, fresh_context).
Proof. rewrite get_eq. destruct e; reflexivity. Qed.

(** C10.  The context [serialize_const_expr] hands to the instruction
    encoder is the default-constructed one: its block, instruction and
    argument maps are empty, so that the encoder may as well ignore the
    context it is given and use the empty one; every [get_*] on it fails
    with the out-of-range error; and an encoder that looks a label up never
    gets past the lookup, the serialization of the constant expression fails
    there. *)
Theorem const_expr_context_is_empty (ty : LType) (opcode : N)
    (operands : list Constant) (s : Session) :
  block_labels_ fresh_context = ∅
  /\ inst_labels_ fresh_context = ∅
  /\ arg_labels_ fresh_context = ∅
  /\ serialize_const_expr serialize_inst ty opcode operands s
     = serialize_const_expr (fun _ => serialize_inst fresh_context)
         ty opcode operands s
  /\ (forall e, get e fresh_context = (Abort OutOfRange, fresh_context))
  /\ (forall (X : Type) pre (needs : X -> Entity) k,
        let fails_at_lookup :=
          (let* inst :=
             getAsInstruction ty opcode operands (dummy_instruction s) in
           let* x := pre fresh_context inst in
           fail OutOfRange) s in
        serialize_const_expr (lookup_encoder pre needs k) ty opcode operands s
        = fails_at_lookup
        /\ serialize_const OPT_MAX_BITS_FOR_INT APFloat_toString
             serialize_type (lookup_encoder pre needs k)
             (CExpr ty opcode operands) s
           = fails_at_lookup).
Proof.
  repeat split.
  - exact get_fresh_context.
  - unfold serialize_const_expr.
    unfold gets at 1. unfold bind at 1.
    apply bind_ext. intros inst s1.
    unfold lookup_encoder. rewrite !bind_assoc. apply bind_ext.
    intros x s2. unfold with_context, bind, fail.
    now rewrite get_fresh_context.
  - simpl. unfold tagged, serialize_const_expr.
    rewrite bind_assoc. unfold gets at 1. unfold bind at 1.
    rewrite bind_assoc. apply bind_ext. intros inst s1.
    unfold lookup_encoder. rewrite !bind_assoc. apply bind_ext.
    intros x s2. unfold with_context, bind, fail.
    now rewrite get_fresh_context.
Qed.

Section ShapeOnlyEncoder.

(** The instruction encoder is a parameter.  What it returns for an
    instruction over constant operands is taken to depend on the opcode,
    the type and the operands alone: not on the identity of the
    instruction, on the labels of the context or on the session. *)
Hypothesis serialize_inst_shape :
  forall ctxt ctxt' i i' s s',
    same_shape i i' ->
    outcome (serialize_inst ctxt i s) = outcome (serialize_inst ctxt' i' s').


End ShapeOnlyEncoder.

(** ** Determinism *)

Section Determinism.

(** What the two external encoders return is taken not to depend on the
    session, nor, for the instruction encoder run in an empty context, on
    the identity of the instruction. *)
Hypothesis serialize_type_independent :
  forall t, session_independent (serialize_type t).
Hypothesis serialize_inst_independent :
  forall i i' s s',
    same_shape i i' ->
    outcome (serialize_inst fresh_context i s)
    = outcome (serialize_inst fresh_context i' s').

Lemma session_independent_bind {A B : Type} (m : M Session A)
    (k : A -> M Session B) :
  session_independent m ->
  (forall a, session_independent (k a)) ->
  session_independent (bind m k).
Proof.
  intros Hm Hk s s'. unfold bind. specialize (Hm s s').
  unfold outcome in *.
  destruct (m s) as [[a|f] s1], (m s') as [[a'|f'] s1']; simpl in *;
    try congruence.
  injection Hm as <-. apply Hk.
Qed.

Lemma session_independent_ret {A : Type} (a : A) :
  session_independent (ret a : M Session A).
Proof. intros s s'. reflexivity. Qed.

Lemma session_independent_fail {A : Type} (f : Failure) :
  session_independent (fail f : M Session A).
Proof. intros s s'. reflexivity. Qed.

Lemma session_independent_tagged (tag : string) (m : M Session Json) :
  session_independent m -> session_independent (tagged tag m).
Proof.
  intros H. unfold tagged. apply session_independent_bind; [exact H|].
  intros p. apply session_independent_ret.
Qed.

Lemma session_independent_push_back_each (f : Constant -> M Session Json)
    (l : list Constant) :
  Forall (fun x => session_independent (f x)) l ->
  forall elements, session_independent (push_back_each f l elements).
Proof.
  induction 1 as [|x l Hx Hl IH]; intros elements; simpl.
  - apply session_independent_ret.
  - apply session_independent_bind; [exact Hx|]. intros e. apply IH.
Qed.

Lemma session_independent_elements (f : Constant -> M Session Json)
    (l : list Constant) :
  Forall (fun x => session_independent (f x)) l ->
  session_independent (serialize_const_pack_aggregate f l).
Proof.
  intros H. unfold serialize_const_pack_aggregate.
  apply session_independent_bind.
  - apply session_independent_push_back_each, H.
  - intros js. apply session_independent_ret.
Qed.

Lemma session_independent_body (f : Constant -> M Session Json)
    (val : Constant) :
  session_independent (f val) ->
  session_independent (serialize_constant_body serialize_type f val).
Proof.
  intros H. unfold serialize_constant_body.
  apply session_independent_bind; [apply serialize_type_independent|].
  intros t. apply session_independent_bind; [exact H|].
  intros r. apply session_independent_ret.
Qed.

Lemma session_independent_int (v : APInt) :
  session_independent (serialize_const_data_int OPT_MAX_BITS_FOR_INT v).
Proof.
  intros s s'. unfold serialize_const_data_int, error, record, fatal, bind,
    modify, fail, ret.
  destruct (OPT_MAX_BITS_FOR_INT <? BitWidth v), (ugt v UINT64_MAX);
    reflexivity.
Qed.

Lemma session_independent_expr (ty : LType) (opcode : N)
    (operands : list Constant) :
  session_independent (serialize_const' (CExpr ty opcode operands)).
Proof.
  intros s s'. rewrite !serialize_const_expr_unfold.
  destruct (getAsInstruction_eq ty opcode operands (dummy_instruction s) s)
    as [s1 H1].
  destruct (getAsInstruction_eq ty opcode operands (dummy_instruction s') s')
    as [s1' H1'].
  rewrite (bind_Done _ _ _ _ _ H1), (bind_Done _ _ _ _ _ H1').
  match goal with
  | |- outcome (bind (serialize_inst _ ?i) _ _)
       = outcome (bind (serialize_inst _ ?i') _ _) =>
      assert (Hi : outcome (serialize_inst fresh_context i s1)
                   = outcome (serialize_inst fresh_context i' s1'))
        by (apply serialize_inst_independent; unfold same_shape; auto)
  end.
  unfold bind, outcome in *.
  destruct (serialize_inst fresh_context _ s1) as [[j|f] s2],
           (serialize_inst fresh_context _ s1') as [[j'|f'] s2'];
    simpl in *; congruence.
Qed.

Lemma serialize_const_independent (val : Constant) :
  session_independent (serialize_const' val).
Proof.
  pattern val. apply Constant_nested_ind; clear val.
  - intros c. destruct c; try exact I; simpl;
      try apply session_independent_fail;
      try (apply session_independent_tagged;
           first [ apply session_independent_ret
                 | apply session_independent_int
                 | intros s s';
                   rewrite !serialize_const_ref_global_eq; reflexivity
                 | intros s s'; reflexivity ]).
  - elementwise session_independent_tagged session_independent_elements
      session_independent_body.
  - elementwise session_independent_tagged session_independent_elements
      session_independent_body.
  - elementwise session_independent_tagged session_independent_elements
      session_independent_body.
  - elementwise session_independent_tagged session_independent_elements
      session_independent_body.
  - elementwise session_independent_tagged session_independent_elements
      session_independent_body.
  - intros ty l IH. simpl. apply session_independent_fail.
  - intros ty op l IH. apply session_independent_expr.
Qed.

(** C9.  Encoding a constant twice in one session gives the same output
    both times: what [serialize_constant] returns for a value is the same in
    the session the first encoding leaves behind as in the session it
    started from, and indeed in every session. *)
Theorem serialize_constant_deterministic (val : Constant) (s : Session) :
  outcome (serialize_constant' val (final (serialize_constant' val s)))
  = outcome (serialize_constant' val s)
  /\ (forall s', outcome (serialize_constant' val s')
                 = outcome (serialize_constant' val s)).
Proof.
  assert (H : session_independent (serialize_constant' val)).
  { apply session_independent_body, serialize_const_independent. }
  split; [apply H|]. intros s'. apply H.
Qed.

End Determinism.

(** ** The module *)

Lemma function_kept_refl (pos : option addr) (f : LFunction) :
  function_kept pos f f.
Proof. unfold function_kept. auto. Qed.

Lemma function_kept_trans (pos : option addr) (f f' f'' : LFunction) :
  function_kept pos f f' -> function_kept pos f' f'' ->
  function_kept pos f f''.
Proof.
  intros (Ha & Hn & Hl & Ht & Hf) (Ha' & Hn' & Hl' & Ht' & Hf').
  unfold function_kept. repeat split; try congruence.
  intros Hh. specialize (Hf Hh). subst f'. auto.
Qed.

Lemma functions_kept_refl (pos : option addr) (fs : list LFunction) :
  Forall2 (function_kept pos) fs fs.
Proof.
  induction fs; constructor; [apply function_kept_refl | assumption].
Qed.

Lemma functions_kept_trans (pos : option addr) (fs fs' fs'' : list LFunction) :
  Forall2 (function_kept pos) fs fs' ->
  Forall2 (function_kept pos) fs' fs'' ->
  Forall2 (function_kept pos) fs fs''.
Proof.
  intros H. revert fs''. induction H as [|f f' fs fs' Hf Hfs IH];
    intros fs'' H'; inversion H'; subst; constructor.
  - eapply function_kept_trans; eassumption.
  - apply IH. assumption.
Qed.

Lemma module_kept_refl (s : Session) : module_kept s s.
Proof. split; [reflexivity | apply functions_kept_refl]. Qed.

Lemma module_kept_trans (s s' s'' : Session) :
  module_kept s s' -> module_kept s' s'' -> module_kept s s''.
Proof.
  intros [Hd Hf] [Hd' Hf']. split; [congruence|].
  rewrite Hd in Hf'. eapply functions_kept_trans; eassumption.
Qed.

Lemma module_kept_bind_at {A B : Type} (m : M Session A)
    (k : A -> M Session B) (s : Session) :
  module_kept s (final (m s)) ->
  (forall a, keeps_module (k a)) ->
  module_kept s (final (bind m k s)).
Proof.
  intros Hm Hk. unfold bind.
  destruct (m s) as [[a|f] s1]; simpl in *; [|exact Hm].
  eapply module_kept_trans; [exact Hm | apply Hk].
Qed.

Lemma keeps_module_bind {A B : Type} (m : M Session A)
    (k : A -> M Session B) :
  keeps_module m -> (forall a, keeps_module (k a)) -> keeps_module (bind m k).
Proof. intros Hm Hk s. apply module_kept_bind_at; [apply Hm | exact Hk]. Qed.

Lemma keeps_module_ret {A : Type} (a : A) : keeps_module (ret a).
Proof. intros s. apply module_kept_refl. Qed.

Lemma keeps_module_fail {A : Type} (f : Failure) :
  keeps_module (fail f : M Session A).
Proof. intros s. apply module_kept_refl. Qed.

Lemma keeps_module_record (level : Logger.Level) (format : string)
    (args : list LogArg) :
  keeps_module (record level format args).
Proof. intros s. split; [reflexivity | apply functions_kept_refl]. Qed.

Lemma keeps_module_tagged (tag : string) (m : M Session Json) :
  keeps_module m -> keeps_module (tagged tag m).
Proof.
  intros H. unfold tagged. apply keeps_module_bind; [exact H|].
  intros p. apply keeps_module_ret.
Qed.

Lemma keeps_module_int (v : APInt) :
  keeps_module (serialize_const_data_int OPT_MAX_BITS_FOR_INT v).
Proof.
  unfold serialize_const_data_int.
  apply keeps_module_bind.
  - destruct (_ <? _); [apply keeps_module_record | apply keeps_module_ret].
  - intros _. apply keeps_module_bind.
    + destruct (ugt _ _); [apply keeps_module_fail | apply keeps_module_ret].
    + intros _. apply keeps_module_ret.
Qed.

Lemma keeps_module_push_back_each (f : Constant -> M Session Json)
    (l : list Constant) :
  Forall (fun x => keeps_module (f x)) l ->
  forall elements, keeps_module (push_back_each f l elements).
Proof.
  induction 1 as [|x l Hx Hl IH]; intros elements; simpl.
  - apply keeps_module_ret.
  - apply keeps_module_bind; [exact Hx|]. intros e. apply IH.
Qed.

Lemma keeps_module_elements (f : Constant -> M Session Json)
    (l : list Constant) :
  Forall (fun x => keeps_module (f x)) l ->
  keeps_module (serialize_const_pack_aggregate f l).
Proof.
  intros H. unfold serialize_const_pack_aggregate.
  apply keeps_module_bind.
  - apply keeps_module_push_back_each, H.
  - intros js. apply keeps_module_ret.
Qed.

(** Insertion before [pos] leaves a list that does not hold [pos]. *)
Lemma insert_before_absent (pos : addr) (i : Instruction)
    (l : list Instruction) :
  existsb (fun x => inst_addr x =? pos) l = false ->
  insert_before pos i l = l.
Proof.
  induction l as [|x l IH]; simpl; [reflexivity|].
  intros H. apply orb_false_iff in H as [Hx Hl].
  rewrite Hx. f_equal. apply IH, Hl.
Qed.

Lemma insert_in_blocks_absent (pos : addr) (i : Instruction)
    (bs : list BasicBlock) :
  existsb (fun b => existsb (fun x => inst_addr x =? pos) (bb_insts b)) bs
  = false ->
  map (insert_in_block pos i) bs = bs.
Proof.
  induction bs as [|b bs IH]; simpl; [reflexivity|].
  intros H. apply orb_false_iff in H as [Hb Hbs].
  f_equal; [|apply IH, Hbs].
  unfold insert_in_block. rewrite (insert_before_absent _ _ _ Hb).
  destruct b; reflexivity.
Qed.

Lemma function_kept_insert (pos : addr) (i : Instruction) (f : LFunction) :
  function_kept (Some pos) f (map_blocks (insert_in_block pos i) f).
Proof.
  unfold function_kept. repeat split. simpl. intros H.
  unfold map_blocks. rewrite (insert_in_blocks_absent _ _ _ H).
  destruct f; reflexivity.
Qed.

Lemma module_kept_getAsInstruction (ty : LType) (opcode : N)
    (operands : list Constant) (s : Session) :
  module_kept s
    (final (getAsInstruction ty opcode operands (dummy_instruction s) s)).
Proof.
  unfold getAsInstruction, alloc, bind, gets, modify, ret.
  destruct (dummy_instruction s) as [pos|] eqn:E; simpl.
  - split; simpl; [now rewrite E|]. rewrite E.
    induction (module_functions s) as [|f fs IH]; simpl; constructor;
      [apply function_kept_insert | exact IH].
  - split; simpl; [now rewrite E | apply functions_kept_refl].
Qed.

Section ModuleKeepingEncoders.

(** The two external encoders are taken to keep the module as the
    serializer itself does. *)
Hypothesis serialize_type_keeps : forall t, keeps_module (serialize_type t).
Hypothesis serialize_inst_keeps :
  forall ctxt i, keeps_module (serialize_inst ctxt i).

Lemma keeps_module_body (f : Constant -> M Session Json) (val : Constant) :
  keeps_module (f val) ->
  keeps_module (serialize_constant_body serialize_type f val).
Proof.
  intros H. unfold serialize_constant_body.
  apply keeps_module_bind; [apply serialize_type_keeps|].
  intros t. apply keeps_module_bind; [exact H|].
  intros r. apply keeps_module_ret.
Qed.

Lemma keeps_module_expr (ty : LType) (opcode : N) (operands : list Constant) :
  keeps_module (serialize_const' (CExpr ty opcode operands)).
Proof.
  intros s. rewrite serialize_const_expr_unfold.
  apply module_kept_bind_at; [apply module_kept_getAsInstruction|].
  intros inst. apply keeps_module_bind; [apply serialize_inst_keeps|].
  intros j. apply keeps_module_ret.
Qed.

Lemma serialize_const_keeps_module (val : Constant) :
  keeps_module (serialize_const' val).
Proof.
  pattern val. apply Constant_nested_ind; clear val.
  - intros c. destruct c; try exact I; simpl;
      try apply keeps_module_fail;
      try (apply keeps_module_tagged;
           first [ apply keeps_module_ret
                 | apply keeps_module_int
                 | intros s; rewrite serialize_const_ref_global_eq;
                   apply module_kept_refl
                 | intros s; apply module_kept_refl ]).
  - elementwise keeps_module_tagged keeps_module_elements keeps_module_body.
  - elementwise keeps_module_tagged keeps_module_elements keeps_module_body.
  - elementwise keeps_module_tagged keeps_module_elements keeps_module_body.
  - elementwise keeps_module_tagged keeps_module_elements keeps_module_body.
  - elementwise keeps_module_tagged keeps_module_elements keeps_module_body.
  - intros ty l IH. simpl. apply keeps_module_fail.
  - intros ty op l IH. apply keeps_module_expr.
Qed.

End ModuleKeepingEncoders.

End SerializerProperties.

(** ** The properties on the sample session *)

Lemma serialize_const_int_exact_witness :
  serialize_const 64 sample_toString sample_serialize_type
    sample_serialize_inst
    (CInt (IntegerTy 65) {| BitWidth := 65; zext := 42 |}) sample_session
  = (Done (Int_record 42),
     set_LOG [width_error 65] sample_session).
Proof.
  apply (serialize_const_int_exact 64 sample_toString sample_serialize_type
           sample_serialize_inst (IntegerTy 65)
           {| BitWidth := 65; zext := 42 |} sample_session).
  unfold UINT64_MAX. simpl. lia.
Defined.

Lemma serialize_const_int_exceeds_fatal_witness :
  outcome
    (serialize_const 64 sample_toString sample_serialize_type
       sample_serialize_inst
       (CInt (IntegerTy 65)
          {| BitWidth := 65; zext := 18446744073709551616 |})
       sample_session)
  = Abort (Fatal "constant integer value exceeds limit: {0}"
             [ArgUnsigned 18446744073709551616]).
Proof.
  apply (serialize_const_int_exceeds_fatal 64 sample_toString
           sample_serialize_type sample_serialize_inst (IntegerTy 65)
           {| BitWidth := 65; zext := 18446744073709551616 |}
           sample_session).
  unfold UINT64_MAX. simpl. lia.
Defined.

Lemma sample_serialize_type_keeps (t : LType) :
  keeps_module (sample_serialize_type t).
Proof. intros s. destruct t; apply module_kept_refl. Qed.

Lemma sample_serialize_inst_keeps (ctxt : FunctionSerializationContext)
    (i : Instruction) :
  keeps_module (sample_serialize_inst ctxt i).
Proof. intros s. apply module_kept_refl. Qed.

Lemma sample_session_fresh : heap_fresh sample_session.
Proof.
  unfold heap_fresh, sample_session. simpl.
  repeat (constructor; simpl); lia.
Qed.


Lemma sample_serialize_inst_shape :
  forall ctxt ctxt' i i' s s',
    same_shape i i' ->
    outcome (sample_serialize_inst ctxt i s)
    = outcome (sample_serialize_inst ctxt' i' s').
Proof.
  intros ctxt ctxt' i i' s s' [Hop _].
  unfold sample_serialize_inst, outcome, ret. simpl. now rewrite Hop.
Qed.


Lemma sample_serialize_type_independent (t : LType) :
  session_independent (sample_serialize_type t).
Proof. intros s s'. destruct t; reflexivity. Qed.

Lemma serialize_constant_deterministic_witness :
  outcome
    (serialize_constant 64 sample_toString sample_serialize_type
       sample_serialize_inst sample_expr
       (final (serialize_constant 64 sample_toString sample_serialize_type
                 sample_serialize_inst sample_expr
                 (final (prepare_for_serialization sample_session)))))
  = outcome
      (serialize_constant 64 sample_toString sample_serialize_type
         sample_serialize_inst sample_expr
         (final (prepare_for_serialization sample_session))).
Proof.
  apply (serialize_constant_deterministic 64 sample_toString
           sample_serialize_type sample_serialize_inst
           sample_serialize_type_independent
           (fun i i' s s' H =>
              sample_serialize_inst_shape fresh_context fresh_context
                i i' s s' H)
           sample_expr
           (final (prepare_for_serialization sample_session))).
Defined.

(** ** More on the function serialization context *)

Lemma get_outcome (e : Entity) (c : FunctionSerializationContext) (l : N) :
  outcome (get e c) = Done l <-> map_of e c !! addr_of e = Some l.
Proof.
  rewrite get_eq. simpl.
  destruct (map_of e c !! addr_of e); split; congruence.
Qed.

(** X7.  A label, once assigned, stays: whatever entity is added next, to
    whatever context, and whether the addition returns or fails, the
    [get_*] of an entity that had a label returns the same label. *)
Theorem label_survives_add (e e' : Entity)
    (c : FunctionSerializationContext) (l : N) :
  outcome (get e' c) = Done l ->
  outcome (get e' (final (add e c))) = Done l.
Proof.
  intros H. destruct (map_of e c !! addr_of e) as [v|] eqn:E.
  - now rewrite (add_present e c v E).
  - rewrite (add_absent e c E). simpl.
    apply get_outcome. apply get_outcome in H.
    destruct (same_map e' e) eqn:Hm.
    + rewrite (map_of_set_same _ _ _ _ Hm).
      rewrite (map_of_same _ _ c Hm) in H.
      rewrite lookup_insert_ne; [exact H|].
      intros Ha. rewrite Ha in E. congruence.
    + now rewrite (map_of_set_other _ _ _ _ Hm).
Qed.

Lemma label_survives_add_witness :
  outcome (get (Block 7)
             (final (add (Inst 7) (final (add (Block 7) fresh_context)))))
  = Done 0.
Proof.
  apply (label_survives_add (Inst 7) (Block 7)
           (final (add (Block 7) fresh_context)) 0).
  vm_compute. reflexivity.
Defined.

(** X8.  An addition touches the map of the entity it adds and no other:
    the two other maps of the context are exactly as before. *)
Theorem add_leaves_other_maps (e x : Entity)
    (c : FunctionSerializationContext) :
  same_map x e = false ->
  map_of x (final (add e c)) = map_of x c.
Proof.
  intros Hm. destruct (map_of e c !! addr_of e) as [v|] eqn:E.
  - now rewrite (add_present e c v E).
  - rewrite (add_absent e c E). simpl. now apply map_of_set_other.
Qed.

Lemma add_leaves_other_maps_witness :
  map_of (Inst 0) (final (add (Block 7) fresh_context)) = ∅.
Proof.
  apply (add_leaves_other_maps (Block 7) (Inst 0) fresh_context).
  reflexivity.
Defined.

Lemma labels_follow_registered (es : list Entity) (e : Entity)
    (c : FunctionSerializationContext) :
  labels_follow es c -> e ∈ es -> is_Some (map_of e c !! addr_of e).
Proof.
  intros Inv He.
  assert (Hin : e ∈ added_to_map_of e es).
  { apply list_elem_of_filter. split; [apply same_map_refl | exact He]. }
  apply list_elem_of_lookup in Hin as [i Hi].
  destruct (Inv e) as (_ & Hlab & _). rewrite (Hlab i e Hi). eauto.
Qed.

(** A sequence of additions that completes added no entity twice. *)
Lemma add_all_Done_NoDup (es pre : list Entity)
    (c : FunctionSerializationContext) :
  labels_follow pre c -> NoDup pre ->
  outcome (add_all es c) = Done tt -> NoDup (pre ++ es).
Proof.
  revert pre c. induction es as [|e es IH]; intros pre c Inv Hpre Hdone.
  - now rewrite app_nil_r.
  - destruct (decide (e ∈ pre)) as [Hin|Hnew].
    + destruct (labels_follow_registered pre e c Inv Hin) as [v Hv].
      simpl in Hdone. rewrite (bind_Abort _ _ _ _ _ (add_present e c v Hv)) in Hdone.
      discriminate Hdone.
    + destruct (labels_follow_add pre e c Inv Hnew) as (c' & Hadd & Inv').
      simpl in Hdone. rewrite (bind_Done _ _ _ _ _ Hadd) in Hdone.
      replace (pre ++ e :: es) with ((pre ++ [e]) ++ es)
        by (rewrite <- app_assoc; reflexivity).
      apply (IH _ c'); [exact Inv'| |exact Hdone].
      apply NoDup_app. split; [exact Hpre|]. split.
      * intros x Hx Hx'. apply list_elem_of_singleton in Hx'. subst x. tauto.
      * apply NoDup_singleton.
Qed.

(** X9.  From a fresh context a sequence of additions returns exactly
    when it adds no entity twice to the same map. *)
Theorem add_all_completes_iff_NoDup (es : list Entity) :
  outcome (add_all es fresh_context) = Done tt <-> NoDup es.
Proof.
  split.
  - intros H.
    exact (add_all_Done_NoDup es [] fresh_context labels_follow_fresh
             (NoDup_nil_2) H).
  - intros H.
    exact (proj1 (labels_follow_add_all es [] fresh_context
                    labels_follow_fresh H)).
Qed.

Lemma added_to_map_of_same (e e' : Entity) (es : list Entity) :
  same_map e e' = true -> added_to_map_of e es = added_to_map_of e' es.
Proof. destruct e, e'; simpl; intros; try discriminate; reflexivity. Qed.

Lemma labels_follow_position (es : list Entity) (e : Entity)
    (c : FunctionSerializationContext) (l : N) :
  labels_follow es c ->
  outcome (get e c) = Done l ->
  exists i : nat, l = N.of_nat i /\ added_to_map_of e es !! i = Some e.
Proof.
  intros Inv H. apply get_outcome in H.
  destruct (decide (e ∈ es)) as [Hin|Hout].
  - assert (Hf : e ∈ added_to_map_of e es).
    { apply list_elem_of_filter. split; [apply same_map_refl | exact Hin]. }
    apply list_elem_of_lookup in Hf as [i Hi]. exists i. split; [|exact Hi].
    destruct (Inv e) as (_ & Hlab & _). rewrite (Hlab i e Hi) in H. congruence.
  - destruct (Inv e) as (_ & _ & Hnone).
    rewrite (Hnone e (same_map_refl e) Hout) in H. discriminate H.
Qed.

(** X10.  In a context built from a fresh one by additions that all
    returned, the labels of each map number its entities: no two entities
    of a map share a label, every label is below the size of the map, and
    every number below the size is the label of some entity of the map. *)
Theorem labels_are_a_numbering (es : list Entity)
    (c : FunctionSerializationContext) :
  add_all es fresh_context = (Done tt, c) ->
  (forall e e' l, same_map e e' = true ->
     outcome (get e c) = Done l -> outcome (get e' c) = Done l -> e = e')
  /\ (forall e l, outcome (get e c) = Done l ->
        (N.to_nat l < size (map_of e c))%nat)
  /\ (forall e (i : nat), (i < size (map_of e c))%nat ->
        exists x, same_map e x = true /\ outcome (get x c) = Done (N.of_nat i)).
Proof.
  intros Hrun.
  assert (Hdone : outcome (add_all es fresh_context) = Done tt)
    by now rewrite Hrun.
  pose proof (add_all_Done_NoDup es [] fresh_context labels_follow_fresh
                NoDup_nil_2 Hdone) as Hnd. simpl in Hnd.
  destruct (labels_follow_add_all es [] fresh_context labels_follow_fresh Hnd)
    as [_ Inv]. simpl in Inv. rewrite Hrun in Inv. simpl in Inv.
  split; [|split].
  - intros e e' l Hm He He'.
    destruct (labels_follow_position es e c l Inv He) as (i & -> & Hi).
    destruct (labels_follow_position es e' c _ Inv He') as (i' & Hii & Hi').
    apply Nat2N.inj in Hii. subst i'.
    rewrite (added_to_map_of_same e e' es Hm) in Hi. congruence.
  - intros e l He.
    destruct (labels_follow_position es e c l Inv He) as (i & -> & Hi).
    destruct (Inv e) as (Hsz & _ & _). rewrite Hsz, Nat2N.id.
    eapply lookup_lt_Some, Hi.
  - intros e i Hi. destruct (Inv e) as (Hsz & Hlab & _).
    rewrite Hsz in Hi. apply lookup_lt_is_Some_2 in Hi as [x Hx].
    exists x. assert (Hm : same_map e x = true).
    { apply list_elem_of_lookup_2, list_elem_of_filter in Hx. tauto. }
    split; [exact Hm|]. apply get_outcome.
    rewrite <- (map_of_same e x c Hm). exact (Hlab i x Hx).
Qed.

Lemma labels_are_a_numbering_witness :
  Nat.lt (N.to_nat 1)
    (size (map_of (Block 9)
             (final (add_all [Block 7; Inst 7; Block 9] fresh_context)))).
Proof.
  destruct (labels_are_a_numbering [Block 7; Inst 7; Block 9]
              (final (add_all [Block 7; Inst 7; Block 9] fresh_context)))
    as (_ & Hbound & _).
  - vm_compute. reflexivity.
  - apply (Hbound (Block 9) 1). vm_compute. reflexivity.
Defined.

Section MoreSerializerProperties.
Variable OPT_MAX_BITS_FOR_INT : N.
Variable APFloat_toString : APFloat -> string.
Variable serialize_type : LType -> M Session Json.
Variable serialize_inst :
  FunctionSerializationContext -> Instruction -> M Session Json.

Local Abbreviation serialize_const' :=
  (serialize_const OPT_MAX_BITS_FOR_INT APFloat_toString serialize_type
     serialize_inst).
Local Abbreviation serialize_constant' :=
  (serialize_constant OPT_MAX_BITS_FOR_INT APFloat_toString serialize_type
     serialize_inst).

(** ** The closed encoding *)

Lemma tagged_Done (tag : string) (m : M Session Json) (s s' : Session)
    (j : Json) :
  tagged tag m s = (Done j, s') ->
  exists payload, m s = (Done payload, s') /\ j = JObject [(tag, payload)].
Proof.
  unfold tagged, bind. destruct (m s) as [[p|f] s1]; [|discriminate].
  intros H. injection H as <- <-. eauto.
Qed.

(** X1.  Whatever [serialize_const] returns is an object with exactly one
    member, and the name of the member is one of the sixteen tags of the
    encoding. *)
Theorem serialize_const_one_closed_tag (val : Constant) (s s' : Session)
    (j : Json) :
  serialize_const' val s = (Done j, s') ->
  exists tag payload, j = JObject [(tag, payload)] /\ In tag closed_tags.
Proof.
  intros H. destruct val; simpl in H; try discriminate H;
    apply tagged_Done in H as (payload & _ & ->);
    eexists _, payload; (split; [reflexivity|]);
    unfold closed_tags; simpl; tauto.
Qed.

(** ** Failures among the elements *)

Lemma encode_all_first_failure (f : Constant -> M Session Json)
    (l1 l2 : list Constant) (x : Constant) (s s1 s2 : Session)
    (js : list Json) (fl : Failure) :
  encode_all f l1 s = (Done js, s1) ->
  f x s1 = (Abort fl, s2) ->
  encode_all f (l1 ++ x :: l2) s = (Abort fl, s2).
Proof.
  revert s js. induction l1 as [|a l1 IH]; intros s js H1 Hx; simpl in *.
  - injection H1 as _ <-. now rewrite (bind_Abort _ _ _ _ _ Hx).
  - unfold bind in *. destruct (f a s) as [[j|fa] sa]; [|discriminate].
    destruct (encode_all f l1 sa) as [[js'|fb] sb] eqn:E; [|discriminate].
    injection H1 as _ <-.
    now rewrite (IH sa js' E Hx).
Qed.

Lemma elementwise_class_eq (mk : LType -> list Constant -> Constant) :
  In mk elementwise_classes ->
  exists tag, forall ty l s,
    serialize_const' (mk ty l) s
    = (let* js := encode_all serialize_constant' l in
       ret (JObject [(tag, JObject [("elements", JArray js)])])) s.
Proof.
  unfold elementwise_classes. simpl.
  intros [<-|[<-|[<-|[<-|[<-|[]]]]]]; eexists; intros ty l s; simpl;
    apply serialize_elements_eq.
Qed.

(** X2.  The first element that fails fails the aggregate or data
    sequence: with the elements before it encoded, the failure of an element
    is the failure of the whole, in the session the element left; the
    elements after it are not looked at. *)
Theorem first_failing_element_fails_the_aggregate
    (mk : LType -> list Constant -> Constant) (ty : LType)
    (l1 l2 : list Constant) (x : Constant) (s s1 s2 : Session)
    (js : list Json) (fl : Failure) :
  In mk elementwise_classes ->
  encode_all serialize_constant' l1 s = (Done js, s1) ->
  serialize_constant' x s1 = (Abort fl, s2) ->
  serialize_const' (mk ty (l1 ++ x :: l2)) s = (Abort fl, s2).
Proof.
  intros Hmk H1 Hx. destruct (elementwise_class_eq mk Hmk) as [tag Heq].
  rewrite Heq.
  now rewrite (bind_Abort _ _ _ _ _
                 (encode_all_first_failure _ l1 l2 x s s1 s2 js fl H1 Hx)).
Qed.

(** X3.  When an aggregate or a data sequence is encoded, its [elements]
    array has as many entries as there are elements; with no element the
    array is empty and the session is untouched. *)
Theorem elements_as_many_as_operands
    (mk : LType -> list Constant -> Constant) (ty : LType)
    (l : list Constant) (s s' : Session) (j : Json) :
  In mk elementwise_classes ->
  serialize_const' (mk ty l) s = (Done j, s') ->
  exists tag js,
    j = JObject [(tag, JObject [("elements", JArray js)])]
    /\ length js = length l
    /\ serialize_const' (mk ty []) s
       = (Done (JObject [(tag, JObject [("elements", JArray [])])]), s).
Proof.
  intros Hmk H. destruct (elementwise_class_eq mk Hmk) as [tag Heq].
  rewrite Heq in H. unfold bind in H.
  destruct (encode_all serialize_constant' l s) as [[js|f] s1] eqn:E;
    [|discriminate].
  injection H as <- <-. exists tag, js. split; [reflexivity|]. split.
  - exact (encode_all_length _ _ _ _ _ E).
  - rewrite Heq. reflexivity.
Qed.

(** ** Integer constants of a well-formed width *)

Lemma UINT64_MAX_eq : UINT64_MAX = 2 ^ 64 - 1.
Proof. reflexivity. Qed.

Lemma APInt_wf_fits (v : APInt) :
  APInt_wf v -> BitWidth v <= 64 -> zext v <= UINT64_MAX.
Proof.
  unfold APInt_wf. intros Hwf Hw.
  assert (2 ^ BitWidth v <= 2 ^ 64) by (apply N.pow_le_mono_r; lia).
  rewrite UINT64_MAX_eq. change (2 ^ 64) with 18446744073709551616 in *. lia.
Qed.

(** X4.  For an [APInt] whose value fits its width and a configured limit
    of at most 64 bits: a constant within the limit is encoded exactly and
    nothing is logged; and the magnitude check never fires alone, every
    fatal failure leaves the width error as the one record added to the
    log. *)
Theorem width_check_covers_magnitude_check (ty : LType) (v : APInt)
    (s : Session) :
  APInt_wf v -> OPT_MAX_BITS_FOR_INT <= 64 ->
  (BitWidth v <= OPT_MAX_BITS_FOR_INT ->
     serialize_const' (CInt ty v) s = (Done (Int_record (zext v)), s))
  /\ (forall f, outcome (serialize_const' (CInt ty v) s) = Abort f ->
        final (serialize_const' (CInt ty v) s)
        = set_LOG (LOG s ++ [width_error (BitWidth v)]) s).
Proof.
  intros Hwf Hopt. split.
  - intros Hw.
    assert (Hfit : zext v <= UINT64_MAX) by (apply APInt_wf_fits; [exact Hwf|lia]).
    simpl. unfold tagged.
    erewrite bind_Done
      by (apply (serialize_const_data_int_fits OPT_MAX_BITS_FOR_INT); exact Hfit).
    simpl. destruct (N.ltb_spec OPT_MAX_BITS_FOR_INT (BitWidth v)); [lia|].
    reflexivity.
  - intros f Hf. destruct (N.le_gt_cases (zext v) UINT64_MAX) as [Hfit|Hex].
    + simpl in Hf. unfold tagged in Hf.
      erewrite bind_Done in Hf
        by (apply (serialize_const_data_int_fits OPT_MAX_BITS_FOR_INT);
            exact Hfit).
      discriminate Hf.
    + assert (Hw : 64 < BitWidth v).
      { destruct (N.le_gt_cases (BitWidth v) 64) as [Hle|Hgt]; [|exact Hgt].
        pose proof (APInt_wf_fits v Hwf Hle). lia. }
      simpl. unfold tagged.
      erewrite bind_Abort
        by (apply (serialize_const_data_int_exceeds OPT_MAX_BITS_FOR_INT);
            exact Hex).
      simpl. destruct (N.ltb_spec OPT_MAX_BITS_FOR_INT (BitWidth v)); [|lia].
      reflexivity.
Qed.

(** ** Global references determine the kind and the name *)

Lemma reference_object_inj (n n' : string) :
  reference_object n = reference_object n' -> n = n'.
Proof.
  unfold reference_object.
  destruct (hasName n) eqn:E, (hasName n') eqn:E'; intros H;
    try discriminate H.
  - congruence.
  - apply hasName_spec in E, E'. congruence.
Qed.

Lemma global_class_eq (mk : LType -> string -> option Constant -> Constant)
    (tag : string) :
  In (mk, tag) global_classes ->
  forall ty name d s,
    serialize_const' (mk ty name d) s
    = (if isUTF8 name
       then Done (JObject [(tag, reference_object name)])
       else Abort AssertionFailed, s).
Proof.
  unfold global_classes. simpl.
  intros [H|[H|[H|[H|[]]]]]; injection H as <- <-; intros ty name d s;
    simpl; apply tagged_reference.
Qed.

(** X5.  A reference that is encoded tells the kind and the name: two
    global values of the known kinds whose serialization returns the same
    encoding have the same tag and the same name (or both none).  Names
    that are not valid UTF-8 are not encoded: they fail the assertion of
    the JSON string. *)
Theorem global_reference_determines_kind_and_name
    (mk mk' : LType -> string -> option Constant -> Constant)
    (tag tag' : string) (ty ty' : LType) (name name' : string)
    (d d' : option Constant) (s s' : Session) (j : Json) :
  In (mk, tag) global_classes -> In (mk', tag') global_classes ->
  outcome (serialize_const' (mk ty name d) s) = Done j ->
  outcome (serialize_const' (mk' ty' name' d') s') = Done j ->
  tag = tag' /\ name = name'.
Proof.
  intros Hk Hk'.
  rewrite (global_class_eq mk tag Hk), (global_class_eq mk' tag' Hk').
  simpl. destruct (isUTF8 name), (isUTF8 name'); intros H H';
    try discriminate H; try discriminate H'.
  rewrite <- H' in H. injection H as Ht Hr. split; [exact Ht|].
  now apply reference_object_inj.
Qed.

End MoreSerializerProperties.

(** ** Constants without constant expressions *)

Section TwoInstructionEncoders.
Variable OPT_MAX_BITS_FOR_INT : N.
Variable APFloat_toString : APFloat -> string.
Variable serialize_type : LType -> M Session Json.
Variables serialize_inst serialize_inst' :
  FunctionSerializationContext -> Instruction -> M Session Json.

Local Abbreviation ser1 :=
  (serialize_const OPT_MAX_BITS_FOR_INT APFloat_toString serialize_type
     serialize_inst).
Local Abbreviation ser2 :=
  (serialize_const OPT_MAX_BITS_FOR_INT APFloat_toString serialize_type
     serialize_inst').

Lemma push_back_each_ext (f g : Constant -> M Session Json)
    (l : list Constant) :
  Forall (fun x => forall s, f x s = g x s) l ->
  forall elements s, push_back_each f l elements s
                     = push_back_each g l elements s.
Proof.
  induction 1 as [|x l Hx Hl IH]; intros elements s; simpl; [reflexivity|].
  unfold bind. rewrite Hx. destruct (g x s) as [[e|fl] s1]; [apply IH|reflexivity].
Qed.

Lemma existsb_false_Forall {A : Type} (p : A -> bool) (l : list A) :
  existsb p l = false -> Forall (fun x => p x = false) l.
Proof.
  induction l as [|x l IH]; simpl; intros H; constructor;
    apply orb_false_iff in H; tauto.
Qed.

Lemma elements_ext (tag : string) (f g : Constant -> M Session Json)
    (l : list Constant) (s : Session) :
  Forall (fun x => forall s0, f x s0 = g x s0) l ->
  tagged tag (serialize_const_pack_aggregate f l) s
  = tagged tag (serialize_const_pack_aggregate g l) s.
Proof.
  intros H. unfold tagged, serialize_const_pack_aggregate, bind.
  now rewrite (push_back_each_ext f g l H).
Qed.

Lemma serialize_constant_body_ext (f g : Constant -> M Session Json)
    (x : Constant) :
  (forall s, f x s = g x s) ->
  forall s, serialize_constant_body serialize_type f x s
            = serialize_constant_body serialize_type g x s.
Proof.
  intros H s. unfold serialize_constant_body, bind.
  destruct (serialize_type (getType x) s) as [[t|fl] s1]; [|reflexivity].
  now rewrite H.
Qed.

(** The case of an aggregate or a data sequence without constant
    expression. *)
Ltac without_expr_elements :=
  let IH := fresh "IH" in
  let He := fresh "He" in
  intros ? ? IH He ?; simpl in *; apply elements_ext;
  apply existsb_false_Forall in He;
  rewrite Forall_forall in *;
  let Hx := fresh "Hx" in
  intros ? Hx; apply serialize_constant_body_ext;
  exact (IH _ Hx (He _ Hx)).

Lemma serialize_const_without_expr (val : Constant) :
  has_expr val = false -> forall s, ser1 val s = ser2 val s.
Proof.
  pattern val. apply Constant_nested_ind; clear val.
  - intros c. destruct c; try exact I; intros _ s; reflexivity.
  - without_expr_elements.
  - without_expr_elements.
  - without_expr_elements.
  - without_expr_elements.
  - without_expr_elements.
  - intros ty l IH He s. reflexivity.
  - intros ty op l IH He. discriminate He.
Qed.

(** X6.  The instruction encoder is used for constant expressions only: a
    constant that holds no constant expression, at any depth, is serialized
    to the same result, with the same final session, whatever instruction
    encoder is plugged in. *)
Theorem instruction_encoder_only_for_expressions (val : Constant)
    (s : Session) :
  has_expr val = false ->
  serialize_constant OPT_MAX_BITS_FOR_INT APFloat_toString serialize_type
    serialize_inst val s
  = serialize_constant OPT_MAX_BITS_FOR_INT APFloat_toString serialize_type
      serialize_inst' val s.
Proof.
  intros H. unfold serialize_constant, serialize_constant_body, bind.
  destruct (serialize_type (getType val) s) as [[t|fl] s1]; [|reflexivity].
  now rewrite (serialize_const_without_expr val H s1).
Qed.

End TwoInstructionEncoders.

(** ** The life cycle of the default logger *)

Lemma default_logger_call (c : DefaultLogger.Call) (g : DefaultLogger.global) :
  DefaultLogger.call c g
  = if DefaultLogger.alternate (DefaultLogger.is_live g) [c]
    then (Done tt, DefaultLogger.left_by g [c])
    else (Abort AssertionFailed, g).
Proof. destruct c, g; reflexivity. Qed.

(** X15.  The life cycle of the default logger: a sequence of
    [init_default_logger] and [destroy_default_logger] calls returns
    exactly when the calls alternate, starting with a creation if no logger
    exists and with a destruction if one does; it then leaves the logger
    of the last call, and otherwise it stops at a failed assertion. *)
Theorem default_logger_life_cycle (cs : list DefaultLogger.Call)
    (g : DefaultLogger.global) :
  if DefaultLogger.alternate (DefaultLogger.is_live g) cs
  then DefaultLogger.calls cs g = (Done tt, DefaultLogger.left_by g cs)
  else outcome (DefaultLogger.calls cs g) = Abort AssertionFailed.
Proof.
  revert g. induction cs as [|c cs IH]; intros g; [reflexivity|].
  cbn [DefaultLogger.calls]. unfold bind. rewrite default_logger_call.
  destruct c as [level nt|], g as [lg|]; simpl; try reflexivity.
  - exact (IH (Some {| DefaultLogger.target_level_ := level;
                       DefaultLogger.no_timestamp_ := nt |})).
  - exact (IH None).
Qed.

(** ** The synthetic scope in use *)

Lemma heap_fresh_prepared (s : Session) :
  heap_fresh s -> heap_fresh (final (prepare_for_serialization s)).
Proof.
  intros H. rewrite (prepare_for_serialization_eq s H). unfold heap_fresh in *.
  simpl. apply Forall_app. split.
  - eapply Forall_impl; [exact H|]. simpl. intros f [Hf Hb]. split; [lia|].
    eapply Forall_impl; [exact Hb|]. simpl. intros b. lia.
  - repeat constructor; simpl; lia.
Qed.

(** X11.  Nothing guards against preparing twice: a second
    [prepare_for_serialization] appends a second synthetic function to the
    module and points the three globals at it; the first synthetic function
    stays in the module. *)
Theorem prepare_twice_makes_two_scopes (s : Session) :
  heap_fresh s ->
  (prepare_for_serialization >> prepare_for_serialization) s
  = (Done tt,
     {| module_functions :=
          module_functions s ++ [synthetic_function (heap_next s);
                                 synthetic_function (heap_next s + 3)];
        dummy_block := Some (heap_next s + 4);
        dummy_function := Some (heap_next s + 3);
        dummy_instruction := Some (heap_next s + 5);
        heap_next := heap_next s + 6;
        LOG := LOG s |}).
Proof.
  intros H. pose proof (heap_fresh_prepared s H) as H'.
  rewrite (prepare_for_serialization_eq s H) in H'. simpl in H'.
  unfold bind. rewrite (prepare_for_serialization_eq s H).
  rewrite (prepare_for_serialization_eq _ H'). simpl.
  rewrite <- app_assoc. simpl.
  replace (heap_next s + 3 + 1) with (heap_next s + 4) by lia.
  replace (heap_next s + 3 + 2) with (heap_next s + 5) by lia.
  replace (heap_next s + 3 + 3) with (heap_next s + 6) by lia.
  reflexivity.
Qed.

Section ScopeInUse.
Variable OPT_MAX_BITS_FOR_INT : N.
Variable APFloat_toString : APFloat -> string.
Variable serialize_type : LType -> M Session Json.
Variable serialize_inst :
  FunctionSerializationContext -> Instruction -> M Session Json.

Local Abbreviation serialize_const' :=
  (serialize_const OPT_MAX_BITS_FOR_INT APFloat_toString serialize_type
     serialize_inst).
Local Abbreviation serialize_constant' :=
  (serialize_constant OPT_MAX_BITS_FOR_INT APFloat_toString serialize_type
     serialize_inst).

Lemma module_kept_unprepared (s s' : Session) :
  module_kept s s' -> dummy_instruction s = None ->
  module_functions s' = module_functions s.
Proof.
  intros [_ H] Hd. rewrite Hd in H.
  induction H as [|f f' fs fs' Hf Hfs IH]; [reflexivity|].
  destruct Hf as (_ & _ & _ & _ & Hf). rewrite (Hf eq_refl). now f_equal.
Qed.

(** X13.  In a session that was never prepared the synthetic instruction
    is null, the materialized instructions are inserted nowhere, and the
    function list of the module is exactly as before, whatever constant is
    serialized. *)
Theorem unprepared_session_keeps_module (val : Constant) (s : Session) :
  (forall t, keeps_module (serialize_type t)) ->
  (forall ctxt i, keeps_module (serialize_inst ctxt i)) ->
  dummy_instruction s = None ->
  module_functions (final (serialize_constant' val s)) = module_functions s.
Proof.
  intros Ht Hi Hd. apply module_kept_unprepared; [|exact Hd].
  apply (keeps_module_body serialize_type Ht).
  apply (serialize_const_keeps_module _ _ _ _ Ht Hi).
Qed.

(** Insertion before [pos], after a prefix that does not hold [pos]. *)
Lemma insert_before_after_prefix (pos : addr) (i d : Instruction)
    (pre post : list Instruction) :
  Forall (fun x => inst_addr x <> pos) pre ->
  inst_addr d = pos ->
  insert_before pos i (pre ++ d :: post) = pre ++ i :: d :: post.
Proof.
  intros Hpre Hd. induction Hpre as [|x pre Hx Hpre IH]; simpl.
  - rewrite Hd, N.eqb_refl. reflexivity.
  - destruct (N.eqb_spec (inst_addr x) pos); [contradiction|]. now rewrite IH.
Qed.

Lemma map_blocks_insert_absent (pos : addr) (i : Instruction)
    (fs : list LFunction) :
  Forall (fun f => holds (Some pos) f = false) fs ->
  map (map_blocks (insert_in_block pos i)) fs = fs.
Proof.
  induction 1 as [|f fs Hf Hfs IH]; simpl; [reflexivity|].
  rewrite IH. f_equal. unfold map_blocks.
  rewrite (insert_in_blocks_absent _ _ _ Hf). destruct f; reflexivity.
Qed.

(** The instruction encoder is taken to leave the module, the synthetic
    instruction and the allocator as they are. *)
Hypothesis serialize_inst_scope :
  forall ctxt i s, scope_view (final (serialize_inst ctxt i s)) = scope_view s.

Lemma scope_at_step (fs : list LFunction) (a : addr)
    (mats : list Instruction) (ty : LType) (opcode : N)
    (operands : list Constant) (s s' : Session) (j : Json) :
  scope_at fs a mats s ->
  serialize_const' (CExpr ty opcode operands) s = (Done j, s') ->
  scope_at fs a
    (mats ++ [{| inst_addr := heap_next s; inst_opcode := opcode;
                 inst_type := ty; inst_operands := operands |}]) s'
  /\ heap_next s' = heap_next s + 1.
Proof.
  intros (Hm & Hd & Hh & Hfs & Hmats) Hrun.
  rewrite serialize_const_expr_unfold in Hrun. rewrite Hd in Hrun.
  unfold getAsInstruction, alloc, bind, gets, modify, ret in Hrun.
  simpl in Hrun.
  match type of Hrun with
  | context [serialize_inst ?c ?i ?s0] =>
      pose proof (serialize_inst_scope c i s0) as Hv;
      destruct (serialize_inst c i s0) as [[r|f] s1]; simpl in Hrun;
      [|discriminate Hrun]
  end.
  injection Hrun as _ <-. unfold scope_view in Hv. simpl in Hv.
  injection Hv as Hv1 Hv2 Hv3.
  unfold scope_at. rewrite Hv1, Hv2, Hv3, Hm, Hd. rewrite map_app. simpl.
  rewrite (map_blocks_insert_absent _ _ _ Hfs).
  split; [|reflexivity]. split.
  - f_equal. unfold synthetic_with, map_blocks, insert_in_block. simpl.
    rewrite (insert_before_after_prefix _ _ _ mats []); [|exact Hmats|reflexivity].
    now rewrite <- app_assoc.
  - split; [reflexivity|]. split; [lia|]. split; [exact Hfs|].
    apply Forall_app. split; [exact Hmats|]. constructor; [simpl; lia|constructor].
Qed.

Lemma scope_at_sequence (fs : list LFunction) (a : addr)
    (es : list (LType * N * list Constant)) :
  forall (mats : list Instruction) (s s' : Session) (js : list Json),
    scope_at fs a mats s ->
    encode_all serialize_const' (map expr_of es) s = (Done js, s') ->
    scope_at fs a (mats ++ materialized (heap_next s) es) s'.
Proof.
  induction es as [|[[ty opcode] operands] es IH]; intros mats s s' js Hs Hrun.
  - simpl in Hrun. injection Hrun as _ <-. simpl. now rewrite app_nil_r.
  - cbn [encode_all map expr_of] in Hrun. unfold bind in Hrun.
    destruct (serialize_const' (CExpr ty opcode operands) s) as [[j|f] s1] eqn:E;
      [|discriminate Hrun].
    destruct (encode_all serialize_const' (map expr_of es) s1)
      as [[js'|f] s2] eqn:E'; [|discriminate Hrun].
    injection Hrun as _ <-.
    destruct (scope_at_step fs a mats ty opcode operands s s1 j Hs E)
      as [Hs1 Hh].
    pose proof (IH _ s1 s2 js' Hs1 E') as Hs2.
    rewrite Hh in Hs2. simpl. now rewrite <- app_assoc in Hs2.
Qed.

Lemma scope_at_prepared (s : Session) :
  heap_fresh s -> insts_fresh s ->
  scope_at (module_functions s) (heap_next s) []
    (final (prepare_for_serialization s)).
Proof.
  intros Hf Hi. rewrite (prepare_for_serialization_eq s Hf). simpl.
  unfold scope_at. simpl. split; [reflexivity|]. split; [reflexivity|].
  split; [lia|]. split; [|constructor].
  unfold insts_fresh in Hi. eapply Forall_impl; [exact Hi|]. simpl.
  intros f Hb. induction Hb as [|b bs Hb Hbs IH]; simpl; [reflexivity|].
  rewrite IH, orb_false_r.
  induction Hb as [|i l Hil Hl IHl]; simpl; [reflexivity|].
  rewrite IHl, orb_false_r. apply N.eqb_neq. lia.
Qed.

(** X12.  Materialized instructions are never removed: after
    [prepare_for_serialization], serializing a sequence of constant
    expressions leaves, in the block of the synthetic function, one
    instruction per expression, in the order of serialization, followed by
    the unreachable terminator; the functions the module had are as
    before. *)
Theorem materialized_instructions_accumulate (s s' : Session)
    (es : list (LType * N * list Constant)) (js : list Json) :
  heap_fresh s -> insts_fresh s ->
  encode_all serialize_const' (map expr_of es)
    (final (prepare_for_serialization s)) = (Done js, s') ->
  module_functions s'
  = module_functions s
    ++ [synthetic_with (heap_next s) (materialized (heap_next s + 3) es)]
  /\ dummy_instruction s' = Some (heap_next s + 2).
Proof.
  intros Hf Hi Hrun.
  pose proof (scope_at_sequence _ _ es [] _ s' js (scope_at_prepared s Hf Hi) Hrun)
    as (Hm & Hd & _).
  rewrite (prepare_for_serialization_eq s Hf) in Hm. simpl in Hm.
  split; [exact Hm | exact Hd].
Qed.

End ScopeInUse.

(** ** Relations between the sessions before and after *)

Section SessionRelation.
Variable OPT_MAX_BITS_FOR_INT : N.
Variable APFloat_toString : APFloat -> string.
Variable serialize_type : LType -> M Session Json.
Variable serialize_inst :
  FunctionSerializationContext -> Instruction -> M Session Json.

Local Abbreviation serialize_const' :=
  (serialize_const OPT_MAX_BITS_FOR_INT APFloat_toString serialize_type
     serialize_inst).
Local Abbreviation serialize_constant' :=
  (serialize_constant OPT_MAX_BITS_FOR_INT APFloat_toString serialize_type
     serialize_inst).

(** A reflexive and transitive relation that the steps of the serializer
    respect: the logging of an error, the materialization of a constant
    expression before the synthetic instruction, and the two encoders. *)
Variable R : Session -> Session -> Prop.
Hypothesis R_refl : forall s, R s s.
Hypothesis R_trans : forall s s' s'', R s s' -> R s' s'' -> R s s''.
Hypothesis R_error : forall format args s, R s (final (error format args s)).
Hypothesis R_materialize :
  forall ty opcode operands s,
    R s (final (getAsInstruction ty opcode operands (dummy_instruction s) s)).
Hypothesis R_type : forall t s, R s (final (serialize_type t s)).
Hypothesis R_inst : forall ctxt i s, R s (final (serialize_inst ctxt i s)).

Local Abbreviation respects m := (forall s, R s (final (m s))).

Lemma respects_bind_at {A B : Type} (m : M Session A) (k : A -> M Session B)
    (s : Session) :
  R s (final (m s)) -> (forall a, respects (k a)) -> R s (final (bind m k s)).
Proof.
  intros Hm Hk. unfold bind.
  destruct (m s) as [[a|f] s1]; simpl in *; [|exact Hm].
  eapply R_trans; [exact Hm | apply Hk].
Qed.

Lemma respects_bind {A B : Type} (m : M Session A) (k : A -> M Session B) :
  respects m -> (forall a, respects (k a)) -> respects (bind m k).
Proof. intros Hm Hk s. apply respects_bind_at; [apply Hm | exact Hk]. Qed.

Lemma respects_tagged (tag : string) (m : M Session Json) :
  respects m -> respects (tagged tag m).
Proof.
  intros H. unfold tagged. apply respects_bind; [exact H|].
  intros p s. apply R_refl.
Qed.

Lemma respects_int (v : APInt) :
  respects (serialize_const_data_int OPT_MAX_BITS_FOR_INT v).
Proof.
  unfold serialize_const_data_int. apply respects_bind.
  - destruct (_ <? _); intros s; [apply R_error | apply R_refl].
  - intros _. apply respects_bind.
    + destruct (ugt _ _); intros s; apply R_refl.
    + intros _ s. apply R_refl.
Qed.

Lemma respects_elements (f : Constant -> M Session Json) (l : list Constant) :
  Forall (fun x => respects (f x)) l ->
  respects (serialize_const_pack_aggregate f l).
Proof.
  intros H. unfold serialize_const_pack_aggregate. apply respects_bind.
  - generalize (@nil Json).
    induction H as [|x l Hx Hl IH]; intros elements; simpl.
    + intros s. apply R_refl.
    + apply respects_bind; [exact Hx|]. intros e. apply IH.
  - intros js s. apply R_refl.
Qed.

Lemma respects_body (f : Constant -> M Session Json) (val : Constant) :
  respects (f val) -> respects (serialize_constant_body serialize_type f val).
Proof.
  intros H. unfold serialize_constant_body.
  apply respects_bind; [intros s; apply R_type|].
  intros t. apply respects_bind; [exact H|].
  intros r s. apply R_refl.
Qed.

Lemma respects_expr (ty : LType) (opcode : N) (operands : list Constant) :
  respects (serialize_const' (CExpr ty opcode operands)).
Proof.
  intros s. rewrite serialize_const_expr_unfold.
  apply respects_bind_at; [apply R_materialize|].
  intros inst. apply respects_bind; [intros s0; apply R_inst|].
  intros j s0. apply R_refl.
Qed.

Lemma serialize_const_respects (val : Constant) :
  respects (serialize_const' val).
Proof.
  pattern val. apply Constant_nested_ind; clear val.
  - intros c. destruct c; try exact I; simpl;
      try (intros s; apply R_refl);
      try (apply respects_tagged;
           first [ apply respects_int
                 | intros s; rewrite serialize_const_ref_global_eq;
                   apply R_refl
                 | intros s; apply R_refl ]).
  - elementwise respects_tagged respects_elements respects_body.
  - elementwise respects_tagged respects_elements respects_body.
  - elementwise respects_tagged respects_elements respects_body.
  - elementwise respects_tagged respects_elements respects_body.
  - elementwise respects_tagged respects_elements respects_body.
  - intros ty l IH s. apply R_refl.
  - intros ty op l IH. apply respects_expr.
Qed.

Lemma serialize_constant_respects (val : Constant) :
  respects (serialize_constant' val).
Proof. apply respects_body, serialize_const_respects. Qed.

End SessionRelation.

Lemma session_extends_refl (s : Session) : session_extends s s.
Proof.
  unfold session_extends. split; [exists []; now rewrite app_nil_r|].
  repeat split; lia.
Qed.

Lemma session_extends_trans (s s' s'' : Session) :
  session_extends s s' -> session_extends s' s'' -> session_extends s s''.
Proof.
  intros ([l Hl] & Hh & Hb & Hf & Hi) ([l' Hl'] & Hh' & Hb' & Hf' & Hi').
  unfold session_extends. split.
  - exists (l ++ l'). rewrite Hl', Hl. now rewrite <- app_assoc.
  - repeat split; try congruence. lia.
Qed.

Lemma session_extends_error (format : string) (args : list LogArg)
    (s : Session) :
  session_extends s (final (error format args s)).
Proof.
  unfold session_extends. simpl. split; [eauto|]. repeat split; lia.
Qed.

Lemma session_extends_materialize (ty : LType) (opcode : N)
    (operands : list Constant) (s : Session) :
  session_extends s
    (final (getAsInstruction ty opcode operands (dummy_instruction s) s)).
Proof.
  unfold getAsInstruction, alloc, bind, gets, modify, ret, session_extends.
  destruct (dummy_instruction s) as [pos|] eqn:E; simpl;
    (split; [exists []; now rewrite app_nil_r|]);
    repeat split; try lia; now rewrite E.
Qed.

(** X14.  Serializing a constant only adds to the session: the log keeps
    its records and may gain some, no address is handed back, and the three
    globals of the synthetic scope point where they did. *)
Theorem serialization_extends_session
    (OPT_MAX_BITS_FOR_INT : N) (APFloat_toString : APFloat -> string)
    (serialize_type : LType -> M Session Json)
    (serialize_inst :
       FunctionSerializationContext -> Instruction -> M Session Json)
    (val : Constant) (s : Session) :
  (forall t s0, session_extends s0 (final (serialize_type t s0))) ->
  (forall ctxt i s0, session_extends s0 (final (serialize_inst ctxt i s0))) ->
  session_extends s
    (final (serialize_constant OPT_MAX_BITS_FOR_INT APFloat_toString
              serialize_type serialize_inst val s)).
Proof.
  intros Ht Hi.
  apply (serialize_constant_respects OPT_MAX_BITS_FOR_INT APFloat_toString
           serialize_type serialize_inst session_extends
           session_extends_refl session_extends_trans session_extends_error
           session_extends_materialize Ht Hi).
Qed.

(** ** The further properties on the sample session *)

Lemma serialize_const_one_closed_tag_witness :
  exists tag payload,
    Int_record 42 = JObject [(tag, payload)] /\ In tag closed_tags.
Proof.
  apply (serialize_const_one_closed_tag 64 sample_toString
           sample_serialize_type sample_serialize_inst
           (CInt (IntegerTy 32) {| BitWidth := 32; zext := 42 |})
           sample_session sample_session (Int_record 42)).
  reflexivity.
Defined.

Lemma first_failing_element_fails_the_aggregate_witness :
  serialize_const 64 sample_toString sample_serialize_type
    sample_serialize_inst
    (CStruct (OpaqueTy 1)
       [CInt (IntegerTy 32) {| BitWidth := 32; zext := 1 |};
        CNoCFIValue (OpaqueTy 2);
        CInt (IntegerTy 32) {| BitWidth := 32; zext := 2 |}])
    sample_session
  = (Abort (Fatal "serializing a no-CFI marker" []), sample_session).
Proof.
  apply (first_failing_element_fails_the_aggregate 64 sample_toString
           sample_serialize_type sample_serialize_inst CStruct (OpaqueTy 1)
           [CInt (IntegerTy 32) {| BitWidth := 32; zext := 1 |}]
           [CInt (IntegerTy 32) {| BitWidth := 32; zext := 2 |}]
           (CNoCFIValue (OpaqueTy 2)) sample_session sample_session
           sample_session
           [JObject [("ty", JObject [("Int", JUInt 32)]);
                     ("repr", Int_record 1)]]).
  - unfold elementwise_classes. simpl. tauto.
  - reflexivity.
  - reflexivity.
Defined.

Lemma elements_as_many_as_operands_witness :
  exists tag js,
    JObject [("Vector",
              JObject [("elements",
                        JArray [JObject [("ty", JNull);
                                         ("repr", JObject [("Null", JNull)])]])])]
    = JObject [(tag, JObject [("elements", JArray js)])]
    /\ length js = 1%nat
    /\ serialize_const 64 sample_toString sample_serialize_type
         sample_serialize_inst (CVector (OpaqueTy 1) []) sample_session
       = (Done (JObject [(tag, JObject [("elements", JArray [])])]),
          sample_session).
Proof.
  apply (elements_as_many_as_operands 64 sample_toString
           sample_serialize_type sample_serialize_inst CVector (OpaqueTy 1)
           [CPointerNull (OpaqueTy 2)] sample_session sample_session).
  - unfold elementwise_classes. simpl. tauto.
  - reflexivity.
Defined.

Lemma width_check_covers_magnitude_check_witness :
  final (serialize_const 64 sample_toString sample_serialize_type
           sample_serialize_inst
           (CInt (IntegerTy 65)
              {| BitWidth := 65; zext := 18446744073709551616 |})
           sample_session)
  = set_LOG [width_error 65] sample_session.
Proof.
  destruct (width_check_covers_magnitude_check 64 sample_toString
              sample_serialize_type sample_serialize_inst (IntegerTy 65)
              {| BitWidth := 65; zext := 18446744073709551616 |}
              sample_session) as [_ H].
  - unfold APInt_wf. vm_compute. reflexivity.
  - lia.
  - apply (H (Fatal "constant integer value exceeds limit: {0}"
                [ArgUnsigned 18446744073709551616])).
    reflexivity.
Defined.

Lemma global_reference_determines_kind_and_name_witness :
  "Function" = "Function" /\ "main" = "main".
Proof.
  apply (global_reference_determines_kind_and_name 64 sample_toString
           sample_serialize_type sample_serialize_inst CFunction CFunction
           "Function" "Function" (OpaqueTy 1) (OpaqueTy 2) "main" "main"
           None (Some sample_expr) sample_session
           (set_LOG [width_error 65] sample_session)
           (JObject [("Function", JObject [("name", JString "main")])])).
  - unfold global_classes. simpl. tauto.
  - unfold global_classes. simpl. tauto.
  - reflexivity.
  - reflexivity.
Defined.

Lemma instruction_encoder_only_for_expressions_witness :
  serialize_constant 64 sample_toString sample_serialize_type
    sample_serialize_inst
    (CArray (OpaqueTy 1) [CGlobalVariable (OpaqueTy 2) "g" (Some sample_expr)])
    sample_session
  = serialize_constant 64 sample_toString sample_serialize_type
      (fun _ _ => fail OutOfRange)
      (CArray (OpaqueTy 1) [CGlobalVariable (OpaqueTy 2) "g" (Some sample_expr)])
      sample_session.
Proof.
  apply (instruction_encoder_only_for_expressions 64 sample_toString
           sample_serialize_type sample_serialize_inst
           (fun _ _ => fail OutOfRange)).
  reflexivity.
Defined.

Lemma prepare_twice_makes_two_scopes_witness :
  module_functions
    (final ((prepare_for_serialization >> prepare_for_serialization)
              sample_session))
  = [sample_function; synthetic_function 100; synthetic_function 103].
Proof.
  rewrite (prepare_twice_makes_two_scopes sample_session sample_session_fresh).
  reflexivity.
Defined.

Lemma sample_session_insts_fresh : insts_fresh sample_session.
Proof.
  unfold insts_fresh, sample_session. simpl.
  repeat (constructor; simpl); lia.
Qed.

Lemma sample_serialize_inst_scope :
  forall ctxt i s,
    scope_view (final (sample_serialize_inst ctxt i s)) = scope_view s.
Proof. intros ctxt i s. reflexivity. Qed.

Lemma materialized_instructions_accumulate_witness :
  module_functions
    (final (encode_all
              (serialize_const 64 sample_toString sample_serialize_type
                 sample_serialize_inst)
              (map expr_of [(IntegerTy 64, 49, []); (IntegerTy 8, 38, [])])
              (final (prepare_for_serialization sample_session))))
  = [sample_function;
     synthetic_with 100
       [{| inst_addr := 103; inst_opcode := 49; inst_type := IntegerTy 64;
           inst_operands := [] |};
        {| inst_addr := 104; inst_opcode := 38; inst_type := IntegerTy 8;
           inst_operands := [] |}]].
Proof.
  refine (proj1 (materialized_instructions_accumulate 64 sample_toString
                   sample_serialize_type sample_serialize_inst
                   sample_serialize_inst_scope sample_session _
                   [(IntegerTy 64, 49, []); (IntegerTy 8, 38, [])]
                   [Expr_record (JObject [("opcode", JUInt 49)]);
                    Expr_record (JObject [("opcode", JUInt 38)])]
                   sample_session_fresh sample_session_insts_fresh _)).
  vm_compute. reflexivity.
Defined.

Lemma unprepared_session_keeps_module_witness :
  module_functions
    (final (serialize_constant 64 sample_toString sample_serialize_type
              sample_serialize_inst sample_expr sample_session))
  = [sample_function].
Proof.
  apply (unprepared_session_keeps_module 64 sample_toString
           sample_serialize_type sample_serialize_inst sample_expr
           sample_session sample_serialize_type_keeps
           sample_serialize_inst_keeps).
  reflexivity.
Defined.

Lemma serialization_extends_session_witness :
  session_extends (final (prepare_for_serialization sample_session))
    (final (serialize_constant 64 sample_toString sample_serialize_type
              sample_serialize_inst sample_expr
              (final (prepare_for_serialization sample_session)))).
Proof.
  apply (serialization_extends_session 64 sample_toString
           sample_serialize_type sample_serialize_inst).
  - intros t s0. destruct t; apply session_extends_refl.
  - intros ctxt i s0. apply session_extends_refl.
Defined.

(** ** The order of additions to different maps *)

Lemma labels_follow_same_maps (es es' : list Entity)
    (c c' : FunctionSerializationContext) :
  labels_follow es c -> labels_follow es' c' ->
  (forall e, added_to_map_of e es = added_to_map_of e es') ->
  forall e, map_of e c = map_of e c'.
Proof.
  intros Inv Inv' Hsame e. apply map_eq. intros k.
  set (x := at_addr e k).
  assert (Hm : same_map e x = true) by (destruct e; reflexivity).
  assert (Hk : addr_of x = k) by (destruct e; reflexivity).
  destruct (Inv e) as (_ & Hlab & Hnone).
  destruct (Inv' e) as (_ & Hlab' & Hnone').
  destruct (decide (x ∈ added_to_map_of e es)) as [Hin|Hout].
  - apply list_elem_of_lookup in Hin as [i Hi].
    pose proof (Hlab i x Hi) as H1.
    rewrite Hsame in Hi. pose proof (Hlab' i x Hi) as H2.
    rewrite Hk in H1, H2. congruence.
  - assert (H1 : x ∉ es).
    { intros Hx. apply Hout, list_elem_of_filter. tauto. }
    assert (H2 : x ∉ es').
    { intros Hx. apply Hout. rewrite Hsame. apply list_elem_of_filter. tauto. }
    pose proof (Hnone x Hm H1) as E1. pose proof (Hnone' x Hm H2) as E2.
    rewrite Hk in E1, E2. congruence.
Qed.

(** X17.  Only the order of the additions to the same map matters: two
    sequences of additions without repetition that add the same entities to
    each map in the same order lead a fresh context to the same context,
    however the additions to different maps are interleaved. *)
Theorem additions_to_different_maps_commute (es es' : list Entity) :
  NoDup es -> NoDup es' ->
  (forall e, added_to_map_of e es = added_to_map_of e es') ->
  add_all es fresh_context = add_all es' fresh_context.
Proof.
  intros Hnd Hnd' Hsame.
  destruct (labels_follow_add_all es [] fresh_context labels_follow_fresh Hnd)
    as [Hd Inv].
  destruct (labels_follow_add_all es' [] fresh_context labels_follow_fresh Hnd')
    as [Hd' Inv'].
  simpl in Inv, Inv'.
  pose proof (labels_follow_same_maps _ _ _ _ Inv Inv' Hsame) as Hmaps.
  destruct (add_all es fresh_context) as [o c],
           (add_all es' fresh_context) as [o' c'].
  simpl in *. subst o o'. f_equal.
  pose proof (Hmaps (Block 0)) as Hb. pose proof (Hmaps (Inst 0)) as Hi.
  pose proof (Hmaps (Arg 0)) as Ha.
  destruct c, c'. simpl in *. congruence.
Qed.

Lemma additions_to_different_maps_commute_witness :
  add_all [Block 7; Inst 7; Block 9] fresh_context
  = add_all [Block 7; Block 9; Inst 7] fresh_context.
Proof.
  apply additions_to_different_maps_commute.
  - apply (bool_decide_unpack _). vm_compute. exact I.
  - apply (bool_decide_unpack _). vm_compute. exact I.
  - intros e. destruct e; reflexivity.
Defined.

(** ** The log of an aggregate of integers *)

Section IntegerElements.
Variable OPT_MAX_BITS_FOR_INT : N.
Variable APFloat_toString : APFloat -> string.
Variable serialize_type : LType -> M Session Json.
Variable serialize_inst :
  FunctionSerializationContext -> Instruction -> M Session Json.

Local Abbreviation serialize_const' :=
  (serialize_const OPT_MAX_BITS_FOR_INT APFloat_toString serialize_type
     serialize_inst).
Local Abbreviation serialize_constant' :=
  (serialize_constant OPT_MAX_BITS_FOR_INT APFloat_toString serialize_type
     serialize_inst).

(** The type encoder is taken to return and to leave the session as it
    is. *)
Hypothesis serialize_type_quiet :
  forall t s, exists j, serialize_type t s = (Done j, s).

Lemma set_LOG_nil (s : Session) : set_LOG (LOG s ++ []) s = s.
Proof. rewrite app_nil_r. destruct s; reflexivity. Qed.

Lemma serialize_constant_integer (ety : LType) (v : APInt) (s : Session) :
  zext v <= UINT64_MAX ->
  exists j,
    serialize_constant' (CInt ety v) s
    = (Done j,
       if OPT_MAX_BITS_FOR_INT <? BitWidth v
       then set_LOG (LOG s ++ [width_error (BitWidth v)]) s
       else s).
Proof.
  intros Hv. unfold serialize_constant, serialize_constant_body.
  destruct (serialize_type_quiet (getType (CInt ety v)) s) as [t Ht].
  rewrite (bind_Done _ _ _ _ _ Ht). cbn [serialize_const]. unfold tagged.
  rewrite bind_assoc.
  rewrite (bind_Done _ _ _ _ _
             (serialize_const_data_int_fits OPT_MAX_BITS_FOR_INT v s Hv)).
  eexists. reflexivity.
Qed.

Lemma encode_all_integers (tvs : list (LType * APInt)) :
  Forall (fun p => zext (snd p) <= UINT64_MAX) tvs ->
  forall s, exists js,
    encode_all serialize_constant' (map int_of tvs) s
    = (Done js,
       set_LOG (LOG s ++ width_errors OPT_MAX_BITS_FOR_INT (map snd tvs)) s).
Proof.
  induction 1 as [|[ety v] tvs Hv Hvs IH]; intros s.
  - exists []. simpl. unfold width_errors. simpl. now rewrite set_LOG_nil.
  - cbn [map encode_all int_of fst snd].
    destruct (serialize_constant_integer ety v s Hv) as [j Hj].
    rewrite (bind_Done _ _ _ _ _ Hj).
    match goal with
    | |- context [bind (encode_all _ _) _ ?s1] => destruct (IH s1) as [js Hjs]
    end.
    rewrite (bind_Done _ _ _ _ _ Hjs). eexists. unfold ret. f_equal.
    unfold width_errors. cbn [List.filter].
    destruct (OPT_MAX_BITS_FOR_INT <? BitWidth v); cbn [map].
    + unfold set_LOG. simpl. now rewrite <- app_assoc.
    + reflexivity.
Qed.

(** X16.  An aggregate or data sequence whose elements are integer
    constants, of whatever types, that all fit 64 bits is encoded, and the
    log gains one width error per element wider than the configured limit,
    in the order of the elements, and nothing else. *)
Theorem aggregate_of_integers_logs_in_order
    (mk : LType -> list Constant -> Constant) (ty : LType)
    (tvs : list (LType * APInt)) (s : Session) :
  In mk elementwise_classes ->
  Forall (fun p => zext (snd p) <= UINT64_MAX) tvs ->
  (exists j, outcome (serialize_const' (mk ty (map int_of tvs)) s) = Done j)
  /\ final (serialize_const' (mk ty (map int_of tvs)) s)
     = set_LOG (LOG s ++ width_errors OPT_MAX_BITS_FOR_INT (map snd tvs)) s.
Proof.
  intros Hmk Hvs. destruct (elementwise_class_eq OPT_MAX_BITS_FOR_INT
    APFloat_toString serialize_type serialize_inst mk Hmk) as [tag Heq].
  rewrite Heq. destruct (encode_all_integers tvs Hvs s) as [js Hjs].
  rewrite (bind_Done _ _ _ _ _ Hjs). simpl. eauto.
Qed.

End IntegerElements.

Lemma sample_serialize_type_quiet :
  forall t s, exists j, sample_serialize_type t s = (Done j, s).
Proof. intros t s. destruct t; eexists; reflexivity. Qed.

Lemma aggregate_of_integers_logs_in_order_witness :
  final (serialize_const 64 sample_toString sample_serialize_type
           sample_serialize_inst
           (CStruct (OpaqueTy 1)
              [CInt (IntegerTy 128) {| BitWidth := 128; zext := 1 |};
               CInt (IntegerTy 32) {| BitWidth := 32; zext := 2 |};
               CInt (IntegerTy 65) {| BitWidth := 65; zext := 3 |}])
           sample_session)
  = set_LOG [width_error 128; width_error 65] sample_session.
Proof.
  refine (proj2 (aggregate_of_integers_logs_in_order 64 sample_toString
                   sample_serialize_type sample_serialize_inst
                   sample_serialize_type_quiet CStruct (OpaqueTy 1)
                   [(IntegerTy 128, {| BitWidth := 128; zext := 1 |});
                    (IntegerTy 32, {| BitWidth := 32; zext := 2 |});
                    (IntegerTy 65, {| BitWidth := 65; zext := 3 |})]
                   sample_session _ _)).
  - unfold elementwise_classes. simpl. tauto.
  - repeat constructor; unfold UINT64_MAX; simpl; lia.
Defined.

(** ** What a serialization adds to the module *)





















